(** * CCMgen: sequence weighting and the [ccmgen] driver script

    A shallow embedding of

    - [ccmpred/weighting/__init__.py]: [weights_uniform], [weights_simple],
      [weights_henikoff], [weights_henikoff_pair];
    - [ccmpred/scripts/run_ccmgen.py]: [parse_args] and [main].

    Conventions.

    - A NumPy [float64] is a rational ([Q]).  Occurrence counts are small
      integers, so the products the weighting code forms are exact; only
      reciprocals and sums are rounded by the source, and here they are
      not: a value stated below is the value of the source up to that
      rounding (where the rationals add up to [1], the source can return
      [0.9999999999999999]).  What is proved of errors, shapes, signs
      and bounds by whole numbers does not depend on it.
      A zero divisor makes NumPy answer [inf] with a "divide by zero"
      warning; the rationals have no infinity, so the embedding reports
      that event as [DivideByZero].
    - A Python exception is a value of [exn]; code that can raise lives in
      the [result] monad.
    - A two-dimensional [ndarray] is a list of rows. *)

From Stdlib Require Import QArith Qabs.
From stdpp Require Import base list strings pretty.

Local Open Scope Q_scope.

(** ** Exceptions *)

Inductive exn : Type :=
| IndexError      (* an index outside an axis *)
| ValueError      (* shapes that do not fit together *)
| DivideByZero.   (* a zero divisor *)

Inductive result (T : Type) : Type :=
| Ok (x : T)
| Raise (e : exn).
Arguments Ok {T} x.
Arguments Raise {T} e.

#[global] Instance result_ret : MRet result := λ T x, Ok x.
#[global] Instance result_bind : MBind result := λ T U f r,
  match r with Ok x => f x | Raise e => Raise e end.
#[global] Instance result_fmap : FMap result := λ T U f r,
  match r with Ok x => Ok (f x) | Raise e => Raise e end.

(** [v[i]] on a sequence: out of range raises [IndexError]. *)
Definition item {T} (v : list T) (i : nat) : result T :=
  match v !! i with Some x => Ok x | None => Raise IndexError end.

(** A loop [for x in xs: s = body(s, x)] whose body can raise. *)
Fixpoint foldM {S X} (body : S → X → result S) (s : S) (xs : list X) : result S :=
  match xs with
  | [] => Ok s
  | x :: xs' => s' ← body s x; foldM body s' xs'
  end.

(** Python's [range(lo, hi)]. *)
Definition range (lo hi : nat) : list nat := seq lo (hi - lo).

(** ** Alignments *)

(** An integer-coded alignment: [msa.shape = (nrow, ncol)], row [n] is
    [msa[n]]. *)
Record Alignment : Type := { ncol : nat; rows : list (list nat) }.

Definition nrow (msa : Alignment) : nat := length (rows msa).

(** Every row has [ncol] entries (what being an [ndarray] means). *)
Definition rectangular (msa : Alignment) : Prop :=
  Forall (λ r, length r = ncol msa) (rows msa).

(** Every code is below the alphabet size [A]. *)
Definition in_alphabet (A : nat) (msa : Alignment) : Prop :=
  Forall (Forall (λ c, (c < A)%nat)) (rows msa).

Definition Qnat (n : nat) : Q := inject_Z (Z.of_nat n).

(** [x != 0] on a float. *)
Definition nonzero (x : Q) : bool := negb (Qeq_bool x 0).

(** Vectors of floats compared entry by entry. *)
Definition veq (v w : list Q) : Prop := Forall2 Qeq v w.

Module Weighting.

(** *** [weights_uniform] *)

(** [np.ones((msa.shape[0],), dtype="float64")] *)
Definition weights_uniform (msa : Alignment) : list Q :=
  replicate (nrow msa) 1.

(** *** [weights_simple] *)

Section Simple.

(** [ccmpred.weighting.cext.calculate_weights_simple], the compiled
    identity-cutoff weighting; it is not part of the Python source and
    is taken as a parameter. *)
Variable calculate_weights_simple : Alignment → Q → bool → result (list Q).

Definition weights_simple (msa : Alignment) (cutoff : Q) (count_gaps : bool)
  : result (list Q) :=
  if Qle_bool 1 cutoff then Ok (weights_uniform msa)
  else calculate_weights_simple msa cutoff count_gaps.

End Simple.

(** *** Occurrence counts *)

Section Counts.

(** The size of the alphabet: the width the counting extension gives its
    tables. *)
Variable A : nat.

(** Number of rows that hold state [a] in column [l]. *)
Definition column_count (msa : Alignment) (l a : nat) : nat :=
  length (filter (λ r, r !! l = Some a) (rows msa)).

(** Modelled from the spec: [ccmpred.counts.single_counts(msa, None)],
    whose source is not part of the Python files.  "For each column l,
    count occurrences of each alphabet state": a table of shape
    [(ncol, A)], every sequence counting once. *)
Definition single_counts (msa : Alignment) : list (list Q) :=
  (λ l, (λ a, Qnat (column_count msa l a)) <$> seq 0 A) <$> seq 0 (ncol msa).

(** Number of rows that hold state [a] in column [k] and state [b] in
    column [l]. *)
Definition pair_count (msa : Alignment) (k l a b : nat) : nat :=
  length (filter (λ r, r !! k = Some a ∧ r !! l = Some b) (rows msa)).

(** Modelled from the spec: [ccmpred.counts.pair_counts(msa, None)],
    whose source is not part of the Python files.  The "pairwise
    state-occurrence counts": a table of shape [(ncol, ncol, A, A)]. *)
Definition pair_counts (msa : Alignment) : list (list (list (list Q))) :=
  (λ k, (λ l, (λ a, (λ b, Qnat (pair_count msa k l a b)) <$> seq 0 A)
                <$> seq 0 A)
          <$> seq 0 (ncol msa))
    <$> seq 0 (ncol msa).

(** *** [weights_henikoff] *)

(** [single_counts[:,0] = 0] *)
Definition clear_state0 (sc : list (list Q)) : result (list (list Q)) :=
  if decide (A = 0)%nat then Raise IndexError
  else Ok ((λ row, <[0%nat := 0]> row) <$> sc).

(** [(single_counts != 0).sum(1)] *)
Definition unique_aa (sc : list (list Q)) : list nat :=
  (λ row, length (List.filter nonzero row)) <$> sc.

(** [single_counts[range(ncol), msa[n]]]: entry [l] is
    [single_counts[l, msa[n][l]]]. *)
Definition take_states (sc : list (list Q)) (L : nat) (row : list nat)
  : result (list Q) :=
  mapM (λ la : nat * nat, r ← item sc la.1; item r la.2)
       (zip (range 0 L) row).

(** [single_counts[range(ncol), msa[n]] * unique_aa] *)
Definition cNi_row (sc : list (list Q)) (ua : list nat) (L : nat)
    (row : list nat) : result (list Q) :=
  picked ← take_states sc L row;
  Ok (zip_with Qmult picked (Qnat <$> ua)).

(** [np.delete(v, np.where(v == 0))] *)
Definition delete_zeros (v : list Q) : list Q := List.filter nonzero v.

(** [np.array(rs)] of a list of one-dimensional arrays: a matrix when
    the arrays have one common length.  Arrays of different lengths make
    NumPy (from 1.24 on) raise [ValueError]. *)
Definition np_array (rs : list (list Q)) : result (list (list Q)) :=
  match rs with
  | [] => Ok []
  | r :: rs' =>
      if forallb (λ r', Nat.eqb (length r') (length r)) rs' then Ok rs
      else Raise ValueError
  end.

(** [1 / x] on a float, without the rounding of the quotient. *)
Definition reciprocal (x : Q) : result Q :=
  if nonzero x then Ok (1 / x) else Raise DivideByZero.

(** What Python's builtin [sum] can return here: its start value, the
    integer [0], or a one-dimensional array. *)
Inductive pyvalue : Type :=
| PyInt (z : Z)
| NdArray (v : list Q).

(** [acc + row], [row] a row of the matrix that [sum] iterates over;
    the entries are added without rounding. *)
Definition py_add (acc : pyvalue) (row : list Q) : pyvalue :=
  match acc with
  | PyInt z => NdArray (Qplus (inject_Z z) <$> row)
  | NdArray v => NdArray (zip_with Qplus v row)
  end.

(** The builtin [sum(m)] of a matrix [m]: iterating a two-dimensional
    array yields its rows, which are added up starting from [0]. *)
Definition builtin_sum (m : list (list Q)) : pyvalue :=
  fold_left py_add m (PyInt 0).

Definition cNi (msa : Alignment) (count_gaps : bool)
  : result (list (list Q)) :=
  sc ← (if count_gaps then Ok (single_counts msa)
        else clear_state0 (single_counts msa));
  rs ← mapM (cNi_row sc (unique_aa sc) (ncol msa)) (rows msa);
  np_array rs.

Definition cNi_nogaps (c : list (list Q)) : result (list (list Q)) :=
  np_array (delete_zeros <$> c).

Definition weights_henikoff (msa : Alignment) (count_gaps : bool)
  : result pyvalue :=
  c ← cNi msa count_gaps;
  c' ← cNi_nogaps c;
  inv ← mapM (mapM reciprocal) c';
  Ok (builtin_sum inv).

(** The formula the source keeps in its comments (lines 29-32, 38 and
    54): [np.array([sum(1.0/(single_counts[range(ncol), msa[n]] *
    unique_aa)) for n in range(nrow)])], one sum per row. *)
Definition henikoff_documented (msa : Alignment) : result (list Q) :=
  let sc := single_counts msa in
  mapM (λ row, c ← cNi_row sc (unique_aa sc) (ncol msa) row;
               inv ← mapM reciprocal c;
               Ok (fold_left Qplus inv 0))
       (rows msa).

(** *** [weights_henikoff_pair] *)

(** [(pair_counts != 0).sum(3).sum(2)] *)
Definition pair_unique_aa (pc : list (list (list (list Q))))
  : list (list nat) :=
  (λ pk : list (list (list Q)),
     (λ pkl : list (list Q),
        sum_list ((λ r, length (List.filter nonzero r)) <$> pkl)) <$> pk)
    <$> pc.

(** [1/(pair_counts[k,l, msa[n][k],msa[n][l]] * unique_aa[k,l])] *)
Definition pair_term (msa : Alignment) (pc : list (list (list (list Q))))
    (ua : list (list nat)) (n k l : nat) : result Q :=
  row ← item (rows msa) n;
  a ← item row k;
  b ← item row l;
  c ← (pk ← item pc k; pkl ← item pk l; pkla ← item pkl a; item pkla b);
  u ← (uk ← item ua k; item uk l);
  reciprocal (c * Qnat u).

(** [henikoff[n] += t] *)
Definition add_at (henikoff : list Q) (n : nat) (t : Q) : result (list Q) :=
  w ← item henikoff n;
  Ok (<[n := w + t]> henikoff).

Definition weights_henikoff_pair (msa : Alignment) : result (list Q) :=
  let pc := pair_counts msa in
  let ua := pair_unique_aa pc in
  foldM (λ henikoff n,
    foldM (λ henikoff k,
      foldM (λ henikoff l,
               t ← pair_term msa pc ua n k l;
               add_at henikoff n t)
            henikoff (range (k + 1) (ncol msa)))
      henikoff (range 0 (ncol msa - 1)))
    (replicate (nrow msa) 0) (range 0 (nrow msa)).

End Counts.

(** The worked example of the Henikoff paper, as the source quotes it
    (lines 40-55): four sequences, five columns, seven states. *)
Definition henikoff_example : Alignment :=
  {| ncol := 5;
     rows := [[0; 1; 3; 0; 6]; [0; 2; 4; 0; 2]; [0; 1; 4; 0; 2]; [0; 1; 5; 0; 0]]%nat |}.

(** [array([ 1.33333333,  1.33333333,  1.        ,  1.33333333])] *)
Definition henikoff_example_weights : list Q :=
  [1.333333; 1.333333; 1.0; 1.333333].

(** A single sequence over two columns: the smallest alignment on which
    rows and columns differ in number. *)
Definition one_row_example : Alignment :=
  {| ncol := 2; rows := [[1; 2]]%nat |}.

(** Two sequences whose first column is all gaps (state [0]). *)
Definition gap_column_example : Alignment :=
  {| ncol := 2; rows := [[0; 1]; [0; 2]]%nat |}.

(** *** The pair weights in the words of the documentation *)

(** The column pairs [(k, l)] with [k < l] among [L] columns. *)
Definition column_pairs (L : nat) : list (nat * nat) :=
  filter (λ kl : nat * nat, (kl.1 < kl.2)%nat)
         (k ← seq 0 L; l ← seq 0 L; [(k, l)]).

(** The state pairs observed at columns [(k, l)], one per sequence. *)
Definition states_at (msa : Alignment) (k l : nat) : list (nat * nat) :=
  omap (λ r : list nat, a ← r !! k; b ← r !! l; Some (a, b)) (rows msa).

(** The number of distinct state pairs observed at [(k, l)]. *)
Definition distinct_pairs (msa : Alignment) (k l : nat) : nat :=
  length (remove_dups (states_at msa k l)).

Definition Qsum (ts : list Q) : Q := foldr Qplus 0 ts.

(** The sum over the column pairs [k < l] of
    [1 / (pair_counts[k,l,row[k],row[l]] * unique_aa[k,l])]. *)
Definition pair_weight (msa : Alignment) (row : list nat) : Q :=
  Qsum ((λ kl : nat * nat,
           1 / (Qnat (pair_count msa kl.1 kl.2 (row !!! kl.1) (row !!! kl.2))
                * Qnat (distinct_pairs msa kl.1 kl.2)))
          <$> column_pairs (ncol msa)).

(** Two sequences over a single column. *)
Definition single_column_example : Alignment :=
  {| ncol := 1; rows := [[3]; [4]]%nat |}.

(** An alignment of three columns without sequences. *)
Definition no_rows_example : Alignment := {| ncol := 3; rows := [] |}.

(** The number of positions of a sequence that are not gaps (state [0]). *)
Definition no_gap_count (row : list nat) : nat :=
  length (filter (λ c, c ≠ 0%nat) row).

(** [|x - y| <= tol] on every entry, for vectors of one length. *)
Definition allclose (tol : Q) (v w : list Q) : Prop :=
  Forall2 (λ x y, Qabs (x - y) <= tol) v w.

End Weighting.

(** ** The driver script *)

Module Ccmgen.

(** The coupling tensor [x_pair], shape [(L, L, A, A)]. *)
Abbreviation tensor := (list (list (list (list Q)))).

(** [x_pair[i, j, a, b]] *)
Definition coupling (x : tensor) (i j a b : nat) : option Q :=
  match x !! i with
  | Some xi =>
      match xi !! j with
      | Some blk => match blk !! a with Some r => r !! b | None => None end
      | None => None
      end
  | None => None
  end.

(** The invariant of the data model: [pair[i,j,a,b] == pair[j,i,b,a]],
    cells that do not exist included. *)
Definition symmetric (x : tensor) : Prop :=
  ∀ i j a b, coupling x i j a b = coupling x j i b a.

(** Zero self-coupling: whatever [pair[i,i,a,b]] exists is [0]. *)
Definition zero_self_coupling (x : tensor) : Prop :=
  ∀ i a b v, coupling x i i a b = Some v → v = 0.

(** The index arrays [I], [J] of [x[I, J, :, :]] broadcast against each
    other: equal lengths pair up position by position, an array of length
    one is repeated, anything else is a shape mismatch. *)
Definition broadcast_indices (I J : list nat) : result (list (nat * nat)) :=
  match I, J with
  | [i], _ => Ok ((λ j, (i, j)) <$> J)
  | _, [j] => Ok ((λ i, (i, j)) <$> I)
  | _, _ => if decide (length I = length J) then Ok (zip I J)
            else Raise IndexError
  end.

(** A block of the same shape with every cell set to [0]. *)
Definition zeros_like (blk : list (list Q)) : list (list Q) :=
  (λ r : list Q, (λ _, 0) <$> r) <$> blk.

(** [x[i, j, :, :] = 0] *)
Definition zero_block (x : tensor) (ij : nat * nat) : result tensor :=
  xi ← item x ij.1;
  blk ← item xi ij.2;
  Ok (<[ij.1 := <[ij.2 := zeros_like blk]> xi]> x).

(** [x_pair[non_contact_indices[0], non_contact_indices[1], :, :] = 0] *)
Definition zero_non_contacts (idx : list nat * list nat) (x : tensor)
  : result tensor :=
  ijs ← broadcast_indices idx.1 idx.2;
  foldM zero_block x ijs.

(** The block [x[i, j, :, :]], when [(i, j)] is in range. *)
Definition block (x : tensor) (i j : nat) : option (list (list Q)) :=
  match x !! i with Some xi => xi !! j | None => None end.

(** *** The contact mask *)

(** [distance_map[i, j]], when [(i, j)] is in range. *)
Definition distance (d : list (list Q)) (i j : nat) : option Q :=
  match d !! i with Some row => row !! j | None => None end.

(** A map of the distances between the residues of a structure: the
    distance from [i] to [j] is the distance from [j] to [i], cells that
    do not exist included, so that the map is square. *)
Definition distance_map (d : list (list Q)) : Prop :=
  ∀ i j, distance d i j = distance d j i.

(** [distance_map > contact_threshold], the boolean matrix of the
    non-contacts; [--contact-threshold] is [type=int]. *)
Definition greater (d : list (list Q)) (thr : Z) : list (list bool) :=
  (λ row : list Q, (λ v, negb (Qle_bool v (inject_Z thr))) <$> row) <$> d.

(** The cells of a boolean matrix that are true, row by row. *)
Definition true_cells (mask : list (list bool)) : list (nat * nat) :=
  i ← seq 0 (length mask);
  (λ j, (i, j))
    <$> filter (λ j, (mask !!! i) !! j = Some true)
               (seq 0 (length (mask !!! i))).

(** [np.where(mask)] on a matrix: the row indices and the column indices
    of the true cells, as two arrays of one length. *)
Definition np_where (mask : list (list bool)) : list nat * list nat :=
  ((true_cells mask).*1, (true_cells mask).*2).

(** Modelled from the spec: [ccm.non_contact_indices] as
    [ccm.read_pdb(contact_threshold)] sets it; the source of the class
    [CCMpred] is not part of the two Python files.  The specification has
    the collaborator "pre-zero pairwise couplings outside a distance
    threshold" ("contact-distance thresholding"), and [main] says which
    pairs these are, in the message of line 127 ("Couplings for pairs
    with Cbeta distances > {0} will be set to zero!") and in the help of
    [--contact-threshold] (lines 70-72): the pairs of columns whose Cbeta
    distance is above the threshold,
    [np.where(distance_map > contact_threshold)]. *)
Definition non_contacts (d : list (list Q)) (thr : Z) : list nat * list nat :=
  np_where (greater d thr).

(** [distance_map[i, j] > contact_threshold], false out of range. *)
Definition far (d : list (list Q)) (thr : Z) (i j : nat) : bool :=
  match distance d i j with
  | Some v => negb (Qle_bool v (inject_Z thr))
  | None => false
  end.

(** *** Command-line options *)

Inductive tree_source_t : Type := binary | star.
Inductive sample_type_t : Type := original | random | random_gapped.

(** The namespace [parser.parse_args()] returns; [None] is an option that
    was not given. *)
Record options : Type := {
  rawfile : string;
  alnfile : string;
  outalnfile : string;
  tree_file : option string;
  tree_source : option tree_source_t;
  mutation_rate : Q;
  mutation_rate_neff : bool;
  burn_in : Z;
  nseq : Z;
  mcmc : bool;
  mcmc_sample_type : sample_type_t;
  mcmc_burn_in : Z;
  mcmc_nseq : Z;
  pdbfile : option string;
  contact_threshold : Z;
  max_gap_pos : Z;
  max_gap_seq : Z;
  aln_format : string;
  num_threads : Z
}.

(** The namespace of a command line that gives the three file names and
    nothing else: the [default=] of every [add_argument]. *)
Definition default_options (raw aln out : string) : options := {|
  rawfile := raw; alnfile := aln; outalnfile := out;
  tree_file := None; tree_source := None;
  mutation_rate := 0.0; mutation_rate_neff := false;
  burn_in := 500; nseq := 0;
  mcmc := false; mcmc_sample_type := original;
  mcmc_burn_in := 500; mcmc_nseq := 10000;
  pdbfile := None; contact_threshold := 8;
  max_gap_pos := 100; max_gap_seq := 100;
  aln_format := "fasta"; num_threads := 1
|}.

(** Python's truth value of an optional string: [None] and the empty
    string are false. *)
Definition truthy_str (s : option string) : bool :=
  match s with
  | Some s => negb (String.eqb s "")
  | None => false
  end.

(** Truth value of [opt.tree_source]: [None], ["binary"] or ["star"]. *)
Definition truthy_source (s : option tree_source_t) : bool :=
  match s with Some _ => true | None => false end.

(** Truth value of a float: false exactly at zero. *)
Definition truthy_float (x : Q) : bool := nonzero x.

(** [x > 0] on a float. *)
Definition positive (x : Q) : bool := negb (Qle_bool x 0).

(** The checks of [parse_args] on the parsed namespace (lines 88-96).
    [parser.error(msg)] prints [msg] and ends the process with status 2:
    [inl msg]. *)
Definition parse_args (opt : options) : string + options :=
  if negb (mcmc opt) && negb (truthy_source (tree_source opt))
     && negb (truthy_str (tree_file opt))
  then inl "Need one of the --tree-* options or --mcmc-sampling!"%string
  else if (truthy_source (tree_source opt) || truthy_str (tree_file opt))
          && (negb (truthy_float (mutation_rate opt))
              && negb (mutation_rate_neff opt))
  then inl "Need one of the --mutation-rate* options!"%string
  else inr opt.

(** *** [main] *)

(** The sampler call [main] makes, with the arguments it passes that come
    from the command line. *)
Inductive sampler_call : Type :=
| sample_to_neff_increasingly (burn_in : Z)
| sample_with_mutation_rate (burn_in : Z) (mutation_rate : Q)
| generate_mcmc_sample (size burn_in : Z) (sample_type : sample_type_t).

(** What [main] asks of the packages it imports, in program order. *)
Inductive event : Type :=
| Logo
| SetOmpThreads (n : Z)
| ReadAlignment (aln format : string) (max_gap_pos max_gap_seq : Z)
| InitialisePotentials (raw : string)
| ReadPdb (pdb : string) (contact_threshold : Z)
| StructuredToLinear
| SpecifyTree (nseq : Z) (tree_file : option string)
              (tree_source : option tree_source_t)
| Sample (call : sampler_call)
| BackinsertGappedPositions
| WriteMsa (out : string) (nrows : nat) (ids : list string)
           (descriptions : list string) (format : string).

(** How a run ends. *)
Inductive status : Type :=
| ParserError (msg : string)   (* [parser.error]: exit status 2 *)
| Raised (e : exn)
| Done.

Record run : Type := { log : list event; exit : status }.

(** The sampler calls of a run, in order. *)
Definition sampler_calls (r : run) : list sampler_call :=
  omap (λ e, match e with Sample c => Some c | _ => None end) (log r).

(** What a run hands to [write_msa]: the number of rows of the alignment
    and the identifiers. *)
Definition written (r : run) : list (nat * list string) :=
  omap (λ e, match e with
             | WriteMsa _ nrows ids _ _ => Some (nrows, ids)
             | _ => None
             end) (log r).

(** A tree option is on the command line. *)
Definition tree_given (opt : options) : Prop :=
  tree_source opt ≠ None ∨ tree_file opt ≠ None.

(** A tree option that names a tree is on the command line: a topology
    to generate, or a file name that is not empty. *)
Definition tree_named (opt : options) : Prop :=
  tree_source opt ≠ None ∨ ∃ s, tree_file opt = Some s ∧ s ≠ ""%string.

(** The state of the [CCMpred] object that [main] reads. *)
Record CCMpred : Type := {
  msa : Alignment;
  N : nat;
  L : nat;
  neff_entropy : Q;
  ccm_max_gap_pos : Z;
  gapped_positions : list nat;
  x_single : list (list Q);
  x_pair : tensor;
  non_contact_indices : list nat * list nat
}.

Definition set_x_pair (ccm : CCMpred) (x : tensor) : CCMpred := {|
  msa := msa ccm; N := N ccm; L := L ccm;
  neff_entropy := neff_entropy ccm;
  ccm_max_gap_pos := ccm_max_gap_pos ccm;
  gapped_positions := gapped_positions ccm;
  x_single := x_single ccm; x_pair := x;
  non_contact_indices := non_contact_indices ccm
|}.

(** The packages [main] calls and whose source is not part of the two
    Python files: [ccmpred.CCMpred], [ccmpred.parameter_handling],
    [ccmpred.trees], [ccmpred.sampling] and [ccmpred.gaps].  Methods that
    update an object return the updated object; [new_CCMpred] is
    [CCMpred()] followed by the three [set_*_file] calls, [specify_tree]
    is [CCMTree()] followed by [tree.specify_tree], [tree_ids] reads
    [tree.ids], and [run_sampler] stands for the three functions of
    [ccmpred.sampling], told apart by the call. *)
Record Packages : Type := {
  params : Type;
  CCMTree : Type;
  new_CCMpred : string → string → option string → CCMpred;
  read_alignment : string → Z → Z → CCMpred → CCMpred;
  intialise_potentials : CCMpred → CCMpred;
  read_pdb : Z → CCMpred → CCMpred;
  structured_to_linear : list (list Q) → tensor → params;
  specify_tree : Z → option string → option tree_source_t → CCMTree;
  tree_ids : CCMTree → list string;
  run_sampler : CCMTree → CCMpred → params → sampler_call → Alignment * Q;
  backinsert_gapped_positions_aln : Alignment → list nat → Alignment
}.

Section Main.

Variable P : Packages.

(** ["seq {0}".format(i)] *)
Definition seq_id (i : nat) : string := ("seq " +:+ pretty i)%string.

(** Lines 104-196 of [main], after [parse_args] has returned [opt].
    The packages and the file system are taken to work: the calls into
    the packages return, and [open(opt.outalnfile, "w")] on line 190
    opens the file.  A run that one of them ends with an exception of its
    own (a file that cannot be read or written) is not among the runs
    below; the only exception modelled is the one [main]'s own indexing
    on line 128 raises. *)
Definition main_body (opt : options) : run :=
  let ccm := new_CCMpred P (alnfile opt) (rawfile opt) (pdbfile opt) in
  let ccm := read_alignment P (aln_format opt) (max_gap_pos opt)
                            (max_gap_seq opt) ccm in
  let ccm := intialise_potentials P ccm in
  let log1 :=
    [Logo; SetOmpThreads (num_threads opt);
     ReadAlignment (alnfile opt) (aln_format opt) (max_gap_pos opt)
                   (max_gap_seq opt);
     InitialisePotentials (rawfile opt)] in
  (* if opt.pdbfile: *)
  let constrained :=
    if truthy_str (pdbfile opt) then
      let ccm := read_pdb P (contact_threshold opt) ccm in
      (x ← zero_non_contacts (non_contact_indices ccm) (x_pair ccm);
       Ok (set_x_pair ccm x),
       [ReadPdb (default ""%string (pdbfile opt)) (contact_threshold opt)])
    else (Ok ccm, []) in
  match constrained.1 with
  | Raise e => {| log := log1 ++ constrained.2; exit := Raised e |}
  | Ok ccm =>
      let x := structured_to_linear P (x_single ccm) (x_pair ccm) in
      (* if opt.nseq == 0: opt.nseq = ccm.N *)
      let nseq := if Z.eqb (nseq opt) 0 then Z.of_nat (N ccm) else nseq opt in
      let tree := specify_tree P nseq (tree_file opt) (tree_source opt) in
      (* [tree] is the CCMTree instance made on line 156, never [None] *)
      let tree_is_not_None := true in
      let call :=
        if tree_is_not_None && mutation_rate_neff opt then
          sample_to_neff_increasingly (burn_in opt)
        else if tree_is_not_None && positive (mutation_rate opt) then
          sample_with_mutation_rate (burn_in opt) (mutation_rate opt)
        else
          generate_mcmc_sample (mcmc_nseq opt) (mcmc_burn_in opt)
                               (mcmc_sample_type opt) in
      let msa_sampled := (run_sampler P tree ccm x call).1 in
      let reinsert := Z.ltb (ccm_max_gap_pos ccm) 100 in
      let msa_sampled :=
        if reinsert then
          backinsert_gapped_positions_aln P msa_sampled (gapped_positions ccm)
        else msa_sampled in
      let descs :=
        (λ _, "synthetic sequence generated with CCMgen"%string)
          <$> range 0 (nrow msa_sampled) in
      let ids :=
        if tree_is_not_None then tree_ids P tree
        else seq_id <$> range 0 (nrow msa_sampled) in
      (* line 196 passes [tree.ids], not [ids] *)
      {| log := log1 ++ constrained.2
                ++ [StructuredToLinear;
                    SpecifyTree nseq (tree_file opt) (tree_source opt);
                    Sample call]
                ++ (if reinsert then [BackinsertGappedPositions] else [])
                ++ [WriteMsa (outalnfile opt) (nrow msa_sampled)
                             (tree_ids P tree) descs (aln_format opt)];
         exit := Done |}
  end.

(** [main], on the namespace the argument parser hands to the checks of
    [parse_args]. *)
Definition main (opt : options) : run :=
  match parse_args opt with
  | inl msg => {| log := []; exit := ParserError msg |}
  | inr opt => main_body opt
  end.

End Main.

(** *** Stand-ins for the missing packages

    A small instance of [Packages] on which [main] can be run: a tree is
    the list of its leaf names, the tree sampler returns one row per leaf
    and the MCMC sampler [size] rows, as sections 4.2 and 4.3 of the
    documentation describe them. *)

Definition blank_alignment (n l : nat) : Alignment :=
  {| ncol := l; rows := replicate n (replicate l 0%nat) |}.

Definition leaf_names (n : nat) : list string :=
  (λ i, ("leaf " +:+ pretty i)%string) <$> seq 0 n.

Definition demo_packages : Packages := {|
  params := unit;
  CCMTree := list string;
  new_CCMpred := λ _ _ _,
    {| msa := Weighting.henikoff_example; N := 4; L := 5;
       neff_entropy := 1; ccm_max_gap_pos := 100; gapped_positions := [];
       x_single := []; x_pair := []; non_contact_indices := ([], []) |};
  read_alignment := λ _ _ _ ccm, ccm;
  intialise_potentials := λ ccm, ccm;
  read_pdb := λ _ ccm, ccm;
  structured_to_linear := λ _ _, tt;
  specify_tree := λ nseq tree_file tree_source,
    match tree_file, tree_source with
    | None, None => []
    | _, _ => leaf_names (Z.to_nat nseq)
    end;
  tree_ids := λ tree, tree;
  run_sampler := λ tree ccm _ call,
    match call with
    | generate_mcmc_sample size _ _ =>
        (blank_alignment (Z.to_nat size) (L ccm), 1)
    | _ => (blank_alignment (length tree) (L ccm), 1)
    end;
  backinsert_gapped_positions_aln := λ m _, m
|}.

(** What the documentation promises of the packages, as far as the
    identifiers handed to the writer depend on it. *)
Record packages_as_documented (P : Packages) : Prop := {
  (* 4.3: "generated alignment of shape size x L" *)
  mcmc_rows : ∀ tree ccm x size burn_in sample_type,
    nrow (run_sampler P tree ccm x
            (generate_mcmc_sample size burn_in sample_type)).1
    = Z.to_nat size;
  (* 4.2: "a tree topology with N leaves", one identifier per leaf *)
  generated_tree_ids : ∀ n source,
    length (tree_ids P (specify_tree P n None (Some source))) = Z.to_nat n;
  (* reinserting gap columns keeps the rows *)
  backinsert_rows : ∀ m gapped,
    nrow (backinsert_gapped_positions_aln P m gapped) = nrow m
}.

(** The two mutually exclusive groups of the parser (lines 34 and 43): a
    namespace never carries both a tree file and a tree source, nor both
    a constant mutation rate and the Neff-matching flag. *)
Definition exclusive_groups (opt : options) : Prop :=
  (tree_file opt = None ∨ tree_source opt = None)
  ∧ (mutation_rate_neff opt = true → mutation_rate opt == 0).

(** Command lines used below. *)

(** [--mcmc-sampling --tree-newick ""] *)
Definition opt_mcmc_empty_tree_file : options :=
  let d := default_options "raw" "aln" "out" in
  {| rawfile := rawfile d; alnfile := alnfile d; outalnfile := outalnfile d;
     tree_file := Some ""%string; tree_source := None;
     mutation_rate := 0; mutation_rate_neff := false;
     burn_in := 500; nseq := 0;
     mcmc := true; mcmc_sample_type := original;
     mcmc_burn_in := 500; mcmc_nseq := 10000;
     pdbfile := None; contact_threshold := 8;
     max_gap_pos := 100; max_gap_seq := 100;
     aln_format := "fasta"; num_threads := 1 |}.

(** [--tree-star --mutation-rate -1 --num-sequences nseq --mcmc-nseq size] *)
Definition opt_star_negative_rate (nseq size : Z) : options :=
  {| rawfile := "raw"; alnfile := "aln"; outalnfile := "out";
     tree_file := None; tree_source := Some star;
     mutation_rate := -1; mutation_rate_neff := false;
     burn_in := 500; nseq := nseq;
     mcmc := false; mcmc_sample_type := original;
     mcmc_burn_in := 500; mcmc_nseq := size;
     pdbfile := None; contact_threshold := 8;
     max_gap_pos := 100; max_gap_seq := 100;
     aln_format := "fasta"; num_threads := 1 |}.

(** [--tree-newick "" --mutation-rate -1] *)
Definition opt_empty_tree_file_negative_rate : options :=
  {| rawfile := "raw"; alnfile := "aln"; outalnfile := "out";
     tree_file := Some ""%string; tree_source := None;
     mutation_rate := -1; mutation_rate_neff := false;
     burn_in := 500; nseq := 0;
     mcmc := false; mcmc_sample_type := original;
     mcmc_burn_in := 500; mcmc_nseq := 10000;
     pdbfile := None; contact_threshold := 8;
     max_gap_pos := 100; max_gap_seq := 100;
     aln_format := "fasta"; num_threads := 1 |}.

(** [--tree-star], no mutation rate option *)
Definition opt_star_no_rate : options :=
  {| rawfile := "raw"; alnfile := "aln"; outalnfile := "out";
     tree_file := None; tree_source := Some star;
     mutation_rate := 0; mutation_rate_neff := false;
     burn_in := 500; nseq := 0;
     mcmc := false; mcmc_sample_type := original;
     mcmc_burn_in := 500; mcmc_nseq := 10000;
     pdbfile := None; contact_threshold := 8;
     max_gap_pos := 100; max_gap_seq := 100;
     aln_format := "fasta"; num_threads := 1 |}.

(** [opt] with [--mcmc-nseq size]. *)
Definition with_mcmc_nseq (opt : options) (size : Z) : options :=
  {| rawfile := rawfile opt; alnfile := alnfile opt;
     outalnfile := outalnfile opt;
     tree_file := tree_file opt; tree_source := tree_source opt;
     mutation_rate := mutation_rate opt;
     mutation_rate_neff := mutation_rate_neff opt;
     burn_in := burn_in opt; nseq := nseq opt;
     mcmc := mcmc opt; mcmc_sample_type := mcmc_sample_type opt;
     mcmc_burn_in := mcmc_burn_in opt; mcmc_nseq := size;
     pdbfile := pdbfile opt; contact_threshold := contact_threshold opt;
     max_gap_pos := max_gap_pos opt; max_gap_seq := max_gap_seq opt;
     aln_format := aln_format opt; num_threads := num_threads opt |}.

(** A symmetric coupling tensor on two columns and one state, and the
    index arrays that name the cell [(0, 1)] but not [(1, 0)]. *)
Definition two_column_tensor : tensor :=
  [[ [[0]]; [[5]] ]; [ [[5]]; [[0]] ]].

Definition one_sided_indices : list nat * list nat := ([0%nat], [1%nat]).

(** Two residues that are 10 apart. *)
Definition two_residue_distances : list (list Q) := [[0; 10]; [10; 0]].

Definition two_sided_indices : list nat * list nat :=
  ([0; 1]%nat, [1; 0]%nat).

(** [--mcmc-sampling --mutation-rate 1/2], no tree option *)
Definition opt_mcmc_with_rate : options :=
  {| rawfile := "raw"; alnfile := "aln"; outalnfile := "out";
     tree_file := None; tree_source := None;
     mutation_rate := 1 # 2; mutation_rate_neff := false;
     burn_in := 500; nseq := 0;
     mcmc := true; mcmc_sample_type := original;
     mcmc_burn_in := 500; mcmc_nseq := 5;
     pdbfile := None; contact_threshold := 8;
     max_gap_pos := 100; max_gap_seq := 100;
     aln_format := "fasta"; num_threads := 1 |}.

(** Index arrays that name the pair [(2, 0)], outside a tensor on two
    columns. *)
Definition out_of_range_indices : list nat * list nat := ([2%nat], [0%nat]).

(** [two_column_tensor] with the blocks [(0, 1)] and [(1, 0)] set to
    zero. *)
Definition zeroed_two_column_tensor : tensor :=
  [[ [[0]]; [[0]] ]; [ [[0]]; [[0]] ]].

End Ccmgen.

(** * Properties *)

(** ** The result monad *)

Section ResultMonad.

Context {X Y : Type}.
Implicit Types (f : X → result Y) (xs : list X).

Lemma mapM_nil f : mapM f [] = Ok [].
Proof. reflexivity. Qed.

Lemma mapM_cons f x xs :
  mapM f (x :: xs) = (y ← f x; k ← mapM f xs; Ok (y :: k)).
Proof. reflexivity. Qed.

(** [mapM] succeeds when the function does on every element. *)
Lemma mapM_Ok f (g : X → Y) xs :
  Forall (λ x, f x = Ok (g x)) xs → mapM f xs = Ok (g <$> xs).
Proof.
  induction 1 as [|x xs Hx _ IH]; [reflexivity|].
  rewrite mapM_cons, Hx. cbn. rewrite IH. reflexivity.
Qed.

(** What [mapM] raises, one of the elements raised. *)
Lemma mapM_Raise f xs e :
  mapM f xs = Raise e → ∃ x, x ∈ xs ∧ f x = Raise e.
Proof.
  induction xs as [|x xs IH]; [discriminate|].
  rewrite mapM_cons. destruct (f x) as [y|e'] eqn:Hx; cbn.
  - destruct (mapM f xs) as [k|e'] eqn:Hxs; cbn; [discriminate|].
    intros [= ->]. destruct (IH eq_refl) as (x' & ? & ?).
    exists x'. split; [by right|done].
  - intros [= ->]. exists x. split; [by left|done].
Qed.

(** A successful [mapM] keeps the length and applies the function at
    every position. *)
Lemma mapM_Ok_inv f xs ys :
  mapM f xs = Ok ys → Forall2 (λ x y, f x = Ok y) xs ys.
Proof.
  revert ys. induction xs as [|x xs IH]; intros ys.
  - intros [= <-]. constructor.
  - rewrite mapM_cons. destruct (f x) as [y|] eqn:Hx; cbn; [|discriminate].
    destruct (mapM f xs) as [k|] eqn:Hxs; cbn; [|discriminate].
    intros [= <-]. constructor; [done|by apply IH].
Qed.

(** [mapM] succeeds with results that share a property when the function
    does on every element. *)
Lemma mapM_Ok_Forall f (Q : Y → Prop) xs :
  Forall (λ x, ∃ y, f x = Ok y ∧ Q y) xs →
  ∃ ys, mapM f xs = Ok ys ∧ Forall Q ys ∧ length ys = length xs.
Proof.
  induction 1 as [|x xs (y & Hy & HQ) _ (ys & Hys & HQs & Hlen)].
  - by exists [].
  - exists (y :: ys). rewrite mapM_cons, Hy. cbn. rewrite Hys. cbn.
    split; [done|]. split; [by constructor|]. by rewrite Hlen.
Qed.

End ResultMonad.

Lemma foldM_app {S X} (body : S → X → result S) s xs ys :
  foldM body s (xs ++ ys) = (s' ← foldM body s xs; foldM body s' ys).
Proof.
  revert s. induction xs as [|x xs IH]; intros s; [reflexivity|].
  cbn. destruct (body s x); cbn; [apply IH|reflexivity].
Qed.

(** Two nested loops are one loop over the pairs of indices, in the order
    the loops visit them. *)
Lemma foldM_nested {S X Y} (body : S → X → Y → result S) (inner : X → list Y)
    s xs :
  foldM (λ s x, foldM (λ s y, body s x y) s (inner x)) s xs
  = foldM (λ s xy, body s xy.1 xy.2) s (x ← xs; (λ y, (x, y)) <$> inner x).
Proof.
  revert s. induction xs as [|x xs IH]; intros s; [reflexivity|].
  cbn. rewrite foldM_app.
  assert (∀ s0 ys, foldM (λ s y, body s x y) s0 ys
                   = foldM (λ s xy, body s xy.1 xy.2) s0 ((λ y, (x, y)) <$> ys))
    as ->.
  { intros s0 ys. revert s0. induction ys as [|y ys IHy]; intros s0;
      [reflexivity|]. cbn. destruct (body s0 x y); cbn; [apply IHy|done]. }
  destruct (foldM _ s _); cbn; [apply IH|reflexivity].
Qed.

Module WeightingProofs.

Import Weighting.

(** ** Uniform and simple weights *)

(** C9.  For every alignment, [weights_uniform] returns a vector with one
    entry per row, every entry equal to [1.0]; it is the vector
    [nrow] ones and so depends on the alignment only through the number
    of its rows. *)
Theorem weights_uniform_ones (msa : Alignment) :
  weights_uniform msa = replicate (nrow msa) 1
  ∧ length (weights_uniform msa) = nrow msa
  ∧ Forall (λ w, w = 1) (weights_uniform msa).
Proof.
  unfold weights_uniform. split; [reflexivity|]. split.
  - apply length_replicate.
  - apply Forall_replicate. reflexivity.
Qed.

(** C3.  For every alignment, every [count_gaps] and every [cutoff >= 1],
    [weights_simple] returns the vector of [weights_uniform]; the result
    is the same whatever the identity-cutoff extension would compute, an
    extension that always raises included: it is not called. *)
Theorem weights_simple_cutoff_ge_1
    (calculate_weights_simple : Alignment → Q → bool → result (list Q))
    (msa : Alignment) (cutoff : Q) (count_gaps : bool) :
  1 <= cutoff →
  weights_simple calculate_weights_simple msa cutoff count_gaps
  = Ok (weights_uniform msa).
Proof.
  intros Hc. unfold weights_simple.
  apply Qle_bool_iff in Hc. rewrite Hc. reflexivity.
Qed.

Lemma weights_simple_cutoff_ge_1_witness :
  1 <= 1
  ∧ weights_simple (λ _ _ _, Raise ValueError) henikoff_example 1 false
    = Ok (weights_uniform henikoff_example).
Proof.
  split; [discriminate|].
  apply (weights_simple_cutoff_ge_1 (λ _ _ _, Raise ValueError)
           henikoff_example 1 false).
  discriminate.
Defined.

(** ** The worked example of the Henikoff paper *)

(** The counts the source lists for the example (lines 42-52) are the
    ones [single_counts] gives. *)
Example henikoff_example_counts :
  single_counts 7 henikoff_example
  = [[4; 0; 0; 0; 0; 0; 0]; [0; 3; 1; 0; 0; 0; 0]; [0; 0; 0; 1; 2; 1; 0];
     [4; 0; 0; 0; 0; 0; 0]; [1; 0; 2; 0; 0; 0; 1]].
Proof. reflexivity. Qed.

Ltac veq_compute :=
  repeat (first [apply Forall2_nil_2 | apply Forall2_cons_2]);
  vm_compute; first [reflexivity | discriminate].

(** C1.  On the worked example [weights_henikoff] does not return the
    reference weights.  With [count_gaps] unset the rows left after the
    zero entries are deleted differ in length and no matrix can be built;
    with [count_gaps] set the result is the vector of the five column
    sums, each [1], not the four row sums.  The per-row formula the source
    documents does give the reference weights within [1e-6]. *)
Theorem henikoff_example_misses_reference :
  weights_henikoff 7 henikoff_example false = Raise ValueError
  ∧ (∃ v, weights_henikoff 7 henikoff_example true = Ok (NdArray v)
          ∧ veq v [1; 1; 1; 1; 1]
          ∧ ¬ allclose (1 # 1000000) v henikoff_example_weights)
  ∧ (∃ w, henikoff_documented 7 henikoff_example = Ok w
          ∧ allclose (1 # 1000000) w henikoff_example_weights).
Proof.
  split; [vm_compute; reflexivity|]. split.
  - eexists. split; [vm_compute; reflexivity|]. split.
    + unfold veq. veq_compute.
    + intros H. apply Forall2_length in H. discriminate.
  - eexists. split; [vm_compute; reflexivity|].
    unfold allclose, henikoff_example_weights. veq_compute.
Qed.

(** The outcome is the same over the 21 states of the amino-acid
    alphabet. *)
Example henikoff_example_21_states :
  weights_henikoff 21 henikoff_example false = Raise ValueError
  ∧ ∃ v, weights_henikoff 21 henikoff_example true = Ok (NdArray v)
         ∧ veq v [1; 1; 1; 1; 1].
Proof.
  split; [vm_compute; reflexivity|].
  eexists. split; [vm_compute; reflexivity|]. unfold veq. veq_compute.
Qed.

(** C2.  [weights_henikoff] does not return one weight per row: for a
    single sequence over two columns it returns two entries, and on the
    worked example five entries for four rows, or no vector at all. *)
Theorem weights_henikoff_not_per_row :
  (∃ v, weights_henikoff 3 one_row_example false = Ok (NdArray v)
        ∧ length v = 2%nat ∧ nrow one_row_example = 1%nat)
  ∧ (∃ v, weights_henikoff 7 henikoff_example true = Ok (NdArray v)
          ∧ length v = 5%nat ∧ nrow henikoff_example = 4%nat)
  ∧ weights_henikoff 7 henikoff_example false = Raise ValueError.
Proof.
  split; [|split].
  - eexists. split; [vm_compute; reflexivity|]. split; reflexivity.
  - eexists. split; [vm_compute; reflexivity|]. split; reflexivity.
  - vm_compute. reflexivity.
Qed.

(** ** Zero divisors in [weights_henikoff] *)

Lemma nonzero_spec (x : Q) : nonzero x = true ↔ ¬ x == 0.
Proof.
  unfold nonzero. rewrite negb_true_iff, <- not_true_iff_false.
  by rewrite Qeq_bool_iff.
Qed.

Lemma item_Raise {T} (v : list T) i e : item v i = Raise e → e = IndexError.
Proof. unfold item. destruct (v !! i); [discriminate|]. by intros [= <-]. Qed.

Lemma item_Ok {T} (v : list T) i x : v !! i = Some x → item v i = Ok x.
Proof. unfold item. by intros ->. Qed.

Lemma np_array_Ok rs c : np_array rs = Ok c → c = rs.
Proof.
  destruct rs as [|r rs]; cbn; [by intros [= <-]|].
  destruct (forallb _ rs); [by intros [= <-]|discriminate].
Qed.

Lemma np_array_Raise rs e : np_array rs = Raise e → e = ValueError.
Proof.
  destruct rs as [|r rs]; cbn; [discriminate|].
  destruct (forallb _ rs); [discriminate|by intros [= <-]].
Qed.

Lemma cNi_row_Raise sc ua L row e : cNi_row sc ua L row = Raise e → e = IndexError.
Proof.
  unfold cNi_row, take_states.
  destruct (mapM _ _) as [picked|e'] eqn:Hm; cbn; [discriminate|].
  intros [= ->]. apply mapM_Raise in Hm as ([l a] & _ & Hla). cbn in Hla.
  destruct (item sc l) as [r|e'] eqn:Hr; cbn in Hla.
  - by apply item_Raise in Hla.
  - injection Hla as ->. by apply item_Raise in Hr.
Qed.

Lemma cNi_Raise A msa count_gaps e :
  cNi A msa count_gaps = Raise e → e ≠ DivideByZero.
Proof.
  unfold cNi. intros H.
  assert (∀ sc, (rs ← mapM (cNi_row sc (unique_aa sc) (ncol msa)) (rows msa);
                 np_array rs) = Raise e → e ≠ DivideByZero) as Hrest.
  { intros sc. destruct (mapM _ _) as [rs|e'] eqn:Hm; cbn.
    - intros ->%np_array_Raise. discriminate.
    - intros [= ->]. apply mapM_Raise in Hm as (row & _ & ->%cNi_row_Raise).
      discriminate. }
  destruct count_gaps; cbn in H; [by eapply Hrest|].
  unfold clear_state0 in H. destruct (decide (A = 0)%nat); cbn in H.
  - injection H as <-. discriminate.
  - by eapply Hrest.
Qed.

Lemma delete_zeros_nonzero v : Forall (λ x, nonzero x = true) (delete_zeros v).
Proof.
  apply Forall_forall. intros x Hx%list_elem_of_In.
  by apply List.filter_In in Hx as [_ ?].
Qed.

Lemma reciprocal_rows m :
  Forall (Forall (λ x, nonzero x = true)) m →
  mapM (mapM reciprocal) m = Ok ((λ r : list Q, (λ x, 1 / x) <$> r) <$> m).
Proof.
  intros Hm. apply mapM_Ok. eapply Forall_impl; [exact Hm|].
  intros r Hr. cbn. apply mapM_Ok. eapply Forall_impl; [exact Hr|].
  intros x Hx. cbn. unfold reciprocal. by rewrite Hx.
Qed.

(** C4.  [weights_henikoff] never divides by zero, for every alignment
    and both values of [count_gaps]: row [n] of the matrix whose
    reciprocals are taken is row [n] of the products
    [count * unique_aa] with the zero products removed, so every divisor
    is non-zero and every reciprocal exists. *)
Theorem weights_henikoff_no_zero_divisor
    (A : nat) (msa : Alignment) (count_gaps : bool) :
  weights_henikoff A msa count_gaps ≠ Raise DivideByZero
  ∧ ∀ c c', cNi A msa count_gaps = Ok c → cNi_nogaps c = Ok c' →
      Forall2 (λ r r', r' = List.filter nonzero r) c c'
      ∧ Forall (Forall (λ x, ¬ x == 0)) c'
      ∧ mapM (mapM reciprocal) c'
        = Ok ((λ r : list Q, (λ x, 1 / x) <$> r) <$> c').
Proof.
  assert (∀ c c', cNi_nogaps c = Ok c' →
            c' = delete_zeros <$> c
            ∧ Forall (Forall (λ x, nonzero x = true)) c') as Hdel.
  { intros c c' ->%np_array_Ok. split; [done|].
    apply Forall_fmap, Forall_true. intros r. apply delete_zeros_nonzero. }
  split.
  - unfold weights_henikoff.
    destruct (cNi A msa count_gaps) as [c|e] eqn:Hc; cbn.
    + destruct (cNi_nogaps c) as [c'|e] eqn:Hc'; cbn.
      * destruct (Hdel _ _ Hc') as [_ Hnz].
        rewrite (reciprocal_rows _ Hnz). discriminate.
      * apply np_array_Raise in Hc' as ->. discriminate.
    + intros [= ->]. by eapply cNi_Raise.
  - intros c c' _ Hc'. destruct (Hdel _ _ Hc') as [-> Hnz]. split; [|split].
    + apply Forall2_fmap_r, Forall_Forall2_diag, Forall_true. done.
    + eapply Forall_impl; [exact Hnz|]. intros r Hr.
      eapply Forall_impl; [exact Hr|]. intros x. apply nonzero_spec.
    + by apply reciprocal_rows.
Qed.

(** Zero products do occur and are skipped: with gaps not counted, a
    column of gaps contributes nothing. *)
Example gap_column_is_skipped :
  cNi 3 gap_column_example false = Ok [[0; 2]; [0; 2]]
  ∧ cNi_nogaps [[0; 2]; [0; 2]] = Ok [[2]; [2]]
  ∧ ∃ v, weights_henikoff 3 gap_column_example false = Ok (NdArray v)
         ∧ veq v [1].
Proof.
  split; [vm_compute; reflexivity|]. split; [vm_compute; reflexivity|].
  eexists. split; [vm_compute; reflexivity|]. unfold veq. veq_compute.
Qed.

(** ** The column pairs of [weights_henikoff_pair] *)

Lemma filter_lt_seq (k a n : nat) :
  filter (λ l, k < l)%nat (seq a n)
  = seq (a `max` S k) (a + n - (a `max` S k)).
Proof.
  revert a. induction n as [|n IH]; intros a.
  - replace (a + 0 - a `max` S k)%nat with 0%nat by lia. reflexivity.
  - cbn [seq]. rewrite filter_cons, IH. case_decide.
    + replace (a `max` S k)%nat with a by lia.
      replace (S a `max` S k)%nat with (S a) by lia.
      replace (a + S n - a)%nat with (S n) by lia.
      replace (S a + n - S a)%nat with n by lia. reflexivity.
    + replace (a `max` S k)%nat with (S k) by lia.
      replace (S a `max` S k)%nat with (S k) by lia.
      f_equal. lia.
Qed.

Lemma filter_bind {X Y} (P : Y → Prop) `{∀ y, Decision (P y)}
    (f : X → list Y) (xs : list X) :
  filter P (xs ≫= f) = xs ≫= (λ x, filter P (f x)).
Proof.
  induction xs as [|x xs IH]; [reflexivity|].
  cbn. by rewrite filter_app, IH.
Qed.

Lemma filter_pairs_from (k : nat) (ls : list nat) :
  filter (λ kl : nat * nat, kl.1 < kl.2)%nat (ls ≫= λ l, [(k, l)])
  = (λ l, (k, l)) <$> filter (λ l, k < l)%nat ls.
Proof.
  induction ls as [|l ls IH]; [reflexivity|].
  change ((l :: ls) ≫= λ l, [(k, l)]) with ((k, l) :: (ls ≫= λ l, [(k, l)])).
  rewrite !filter_cons, IH. cbn [fst snd]. by case_decide.
Qed.

(** The pairs the two inner loops visit, in the order they visit them,
    are the column pairs [k < l]. *)
Lemma loop_pairs_column_pairs (L : nat) :
  (k ← range 0 (L - 1); (λ l, (k, l)) <$> range (k + 1) L) = column_pairs L.
Proof.
  unfold column_pairs, range. rewrite filter_bind.
  assert (∀ k, filter (λ kl : nat * nat, kl.1 < kl.2)%nat
                      (seq 0 L ≫= λ l, [(k, l)])
               = (λ l, (k, l)) <$> seq (k + 1) (L - (k + 1))) as Hk.
  { intros k. rewrite filter_pairs_from, filter_lt_seq. f_equal.
    replace (0 `max` S k)%nat with (k + 1)%nat by lia. f_equal. }
  rewrite (list_bind_ext _ _ _ (seq 0 L) Hk eq_refl).
  destruct L as [|L]; [reflexivity|].
  replace (S L - 1 - 0)%nat with L by lia.
  rewrite (seq_S L 0), bind_app.
  change ([(0 + L)%nat] ≫= ?f) with (f (0 + L)%nat ++ []). cbv beta.
  replace (seq (0 + L + 1) (S L - (0 + L + 1))) with (@nil nat);
    [by rewrite fmap_nil, !app_nil_r|].
  symmetry. apply nil_length_inv. rewrite length_seq. lia.
Qed.

Lemma column_pairs_spec (L k l : nat) :
  (k, l) ∈ column_pairs L ↔ (k < l ∧ l < L)%nat.
Proof.
  unfold column_pairs. rewrite list_elem_of_filter, list_elem_of_bind. cbn.
  split.
  - intros [Hlt (k' & (l' & [= -> ->]%list_elem_of_singleton
                            & Hl%elem_of_seq)%list_elem_of_bind & _)]. lia.
  - intros [Hlt HL]. split; [done|]. exists k. split; [|apply elem_of_seq; lia].
    apply list_elem_of_bind. exists l. split; [by left|apply elem_of_seq; lia].
Qed.

Lemma column_pairs_NoDup (L : nat) : NoDup (column_pairs L).
Proof.
  unfold column_pairs. apply NoDup_filter, NoDup_bind; [| |apply NoDup_seq].
  - intros k1 k2 [k l] _ _ (l1 & [= -> ->]%list_elem_of_singleton & _)%list_elem_of_bind
      (l2 & [= -> _]%list_elem_of_singleton & _)%list_elem_of_bind. done.
  - intros k _. apply NoDup_bind; [| |apply NoDup_seq].
    + intros l1 l2 [k' l] _ _ [= _ ->]%list_elem_of_singleton
        [= _ ->]%list_elem_of_singleton. done.
    + intros l _. apply NoDup_singleton.
Qed.

(** ** Pair counts and the number of distinct pairs *)

Lemma Qnat_nonzero (n : nat) : nonzero (Qnat n) = true ↔ n ≠ 0%nat.
Proof.
  rewrite nonzero_spec. unfold Qnat, Qeq. cbn. lia.
Qed.

Lemma Qmult_nonzero (x y : Q) :
  nonzero x = true → nonzero y = true → nonzero (x * y) = true.
Proof.
  rewrite !nonzero_spec. intros Hx Hy [?|?]%Qmult_integral; tauto.
Qed.

(** A pair count is positive exactly when some sequence shows the pair. *)
Lemma pair_count_pos (msa : Alignment) (k l a b : nat) :
  pair_count msa k l a b ≠ 0%nat
  ↔ ∃ r, r ∈ rows msa ∧ r !! k = Some a ∧ r !! l = Some b.
Proof.
  unfold pair_count.
  destruct (filter _ (rows msa)) as [|r rs] eqn:Hf; cbn.
  - split; [done|]. intros (r & Hr & HP).
    intros _. exact (filter_nil_not_elem_of _ _ r Hf HP Hr).
  - split; [intros _|done].
    assert (r ∈ filter (λ r : list nat, r !! k = Some a ∧ r !! l = Some b)
                       (rows msa)) as Hr by (rewrite Hf; by left).
    apply list_elem_of_filter in Hr as [? ?]. by exists r.
Qed.

Lemma states_at_spec (msa : Alignment) (k l a b : nat) :
  (a, b) ∈ states_at msa k l
  ↔ ∃ r, r ∈ rows msa ∧ r !! k = Some a ∧ r !! l = Some b.
Proof.
  unfold states_at. rewrite list_elem_of_omap. split.
  - intros (r & Hr & H). exists r. split; [done|].
    destruct (r !! k) as [a'|]; cbn in H; [|done].
    destruct (r !! l) as [b'|]; cbn in H; [|done]. by simplify_eq.
  - intros (r & Hr & Hk & Hl). exists r. split; [done|].
    by rewrite Hk, Hl.
Qed.

Lemma count_nonzero_row (f : nat → nat) (bs : list nat) :
  length (List.filter nonzero ((λ b, Qnat (f b)) <$> bs))
  = length (filter (λ b, f b ≠ 0%nat) bs).
Proof.
  induction bs as [|b bs IH]; [reflexivity|].
  rewrite fmap_cons, filter_cons. cbn [List.filter].
  destruct (nonzero (Qnat (f b))) eqn:Hb.
  - apply Qnat_nonzero in Hb. rewrite decide_True by done.
    cbn. by rewrite IH.
  - apply not_true_iff_false in Hb. rewrite Qnat_nonzero in Hb.
    rewrite decide_False by done. done.
Qed.

Lemma length_filter_from (P : nat * nat → Prop) `{∀ ab, Decision (P ab)}
    (a : nat) (bs : list nat) :
  length (filter P ((λ b, (a, b)) <$> bs))
  = length (filter (λ b, P (a, b)) bs).
Proof.
  induction bs as [|b bs IH]; [reflexivity|].
  rewrite fmap_cons, !filter_cons. case_decide; cbn; by rewrite IH.
Qed.

(** [(block != 0).sum(1).sum(0)] counts the non-zero cells of a block. *)
Lemma count_nonzero_block (f : nat → nat → nat) (xs bs : list nat) :
  sum_list ((λ r, length (List.filter nonzero r))
              <$> ((λ a, (λ b, Qnat (f a b)) <$> bs) <$> xs))
  = length (filter (λ ab : nat * nat, f ab.1 ab.2 ≠ 0%nat)
                   (a ← xs; (λ b, (a, b)) <$> bs)).
Proof.
  induction xs as [|a xs IH]; [reflexivity|].
  rewrite !fmap_cons. cbn [sum_list sum_list_with].
  change ((a :: xs) ≫= ?g) with (g a ++ (xs ≫= g)). cbv beta.
  rewrite filter_app, length_app, <- IH, count_nonzero_row.
  by rewrite (length_filter_from (λ ab, f ab.1 ab.2 ≠ 0%nat)).
Qed.

(** The non-zero cells of the block at [(k, l)] are the distinct state
    pairs observed there. *)
Lemma distinct_pairs_count (A : nat) (msa : Alignment) (k l : nat) :
  in_alphabet A msa →
  length (filter (λ ab : nat * nat, pair_count msa k l ab.1 ab.2 ≠ 0%nat)
                 (a ← seq 0 A; (λ b, (a, b)) <$> seq 0 A))
  = distinct_pairs msa k l.
Proof.
  intros Halpha. unfold distinct_pairs.
  apply Permutation_length, NoDup_Permutation.
  - apply NoDup_filter, NoDup_bind; [| |apply NoDup_seq].
    + intros a1 a2 [a b] _ _ (? & [= -> _] & _)%list_elem_of_fmap
        (? & [= -> _] & _)%list_elem_of_fmap. done.
    + intros a _. apply NoDup_fmap_2; [|apply NoDup_seq].
      by intros ?? [= ->].
  - apply NoDup_remove_dups.
  - intros [a b]. rewrite list_elem_of_filter, elem_of_remove_dups,
      states_at_spec. cbn. rewrite pair_count_pos. split; [tauto|].
    intros (r & Hr & Hk & Hl). split; [by exists r|].
    unfold in_alphabet in Halpha. rewrite Forall_forall in Halpha.
    specialize (Halpha r Hr). rewrite Forall_lookup in Halpha.
    apply list_elem_of_bind. exists a. split.
    + apply list_elem_of_fmap. exists b. split; [done|].
      apply elem_of_seq. specialize (Halpha _ _ Hl). lia.
    + apply elem_of_seq. specialize (Halpha _ _ Hk). lia.
Qed.

Lemma pair_term_Ok (A : nat) (msa : Alignment) (n k l : nat) (row : list nat) :
  in_alphabet A msa →
  rows msa !! n = Some row → length row = ncol msa →
  (k < ncol msa)%nat → (l < ncol msa)%nat →
  pair_term msa (pair_counts A msa) (pair_unique_aa (pair_counts A msa)) n k l
  = Ok (1 / (Qnat (pair_count msa k l (row !!! k) (row !!! l))
             * Qnat (distinct_pairs msa k l))).
Proof.
  intros Halpha Hrow Hlen Hk Hl.
  destruct (lookup_lt_is_Some_2 row k) as [a Ha]; [lia|].
  destruct (lookup_lt_is_Some_2 row l) as [b Hb]; [lia|].
  rewrite (list_lookup_total_correct _ _ _ Ha),
    (list_lookup_total_correct _ _ _ Hb).
  assert (row ∈ rows msa) as Hin by by eapply list_elem_of_lookup_2.
  assert (a < A ∧ b < A)%nat as [HaA HbA].
  { unfold in_alphabet in Halpha. rewrite Forall_forall in Halpha.
    specialize (Halpha row Hin). rewrite Forall_lookup in Halpha.
    split; by eapply Halpha. }
  unfold pair_term.
  rewrite (item_Ok _ _ _ Hrow). cbn.
  rewrite (item_Ok _ _ _ Ha). cbn. rewrite (item_Ok _ _ _ Hb). cbn.
  unfold pair_unique_aa, pair_counts, item.
  rewrite !list_lookup_fmap, !lookup_seq_lt by done. cbn.
  rewrite !list_lookup_fmap, !lookup_seq_lt by done. cbn.
  rewrite !list_lookup_fmap, !lookup_seq_lt by done. cbn.
  rewrite !list_lookup_fmap, !lookup_seq_lt by done. cbn.
  rewrite (count_nonzero_block (pair_count msa k l)),
    (distinct_pairs_count A msa k l Halpha).
  unfold reciprocal. rewrite Qmult_nonzero; [done| |].
  - apply Qnat_nonzero, pair_count_pos. by exists row.
  - apply Qnat_nonzero. unfold distinct_pairs.
    assert ((a, b) ∈ remove_dups (states_at msa k l)) as Hab.
    { apply elem_of_remove_dups, states_at_spec. by exists row. }
    destruct (remove_dups _); [by apply elem_of_nil in Hab|done].
Qed.

(** ** The loops of [weights_henikoff_pair] *)

Lemma fold_left_Qplus_Qsum (ts : list Q) (a : Q) :
  fold_left Qplus ts a == a + Qsum ts.
Proof.
  unfold Qsum. revert a. induction ts as [|t ts IH]; intros a; cbn.
  - ring.
  - rewrite IH. ring.
Qed.

(** The inner loops add the terms, one after the other, to entry [n] and
    touch no other entry. *)
Lemma foldM_add_at {X} (f : X → result Q) (t : X → Q) (n : nat) (xs : list X) :
  ∀ (h : list Q) (w : Q),
    h !! n = Some w → Forall (λ x, f x = Ok (t x)) xs →
    foldM (λ h x, v ← f x; add_at h n v) h xs
    = Ok (<[n := fold_left Qplus (t <$> xs) w]> h).
Proof.
  induction xs as [|x xs IH]; intros h w Hn Hxs.
  - cbn. by rewrite list_insert_id.
  - apply Forall_cons in Hxs as [Hx Hxs]. cbn. rewrite Hx. cbn.
    unfold add_at. rewrite (item_Ok _ _ _ Hn). cbn.
    rewrite (IH _ (w + t x)); [|by apply list_lookup_insert_eq,
                                   lookup_lt_is_Some|done].
    by rewrite list_insert_insert_eq.
Qed.

(** A loop whose step [n] stores [v n] at index [n] of a vector of
    zeros. *)
Lemma foldM_store_each (v : nat → Q) (body : list Q → nat → result (list Q))
    (ns : list nat) :
  ∀ h : list Q,
    NoDup ns →
    (∀ n h', n ∈ ns → h' !! n = Some 0 → body h' n = Ok (<[n := v n]> h')) →
    (∀ n, n ∈ ns → h !! n = Some 0) →
    ∃ h', foldM body h ns = Ok h'
          ∧ length h' = length h
          ∧ (∀ n, n ∈ ns → h' !! n = Some (v n))
          ∧ (∀ n, n ∉ ns → h' !! n = h !! n).
Proof.
  induction ns as [|n ns IH]; intros h Hnd Hbody Hzero.
  - exists h. split; [done|]. split; [done|]. split; [|done].
    by intros n ?%elem_of_nil.
  - apply NoDup_cons in Hnd as [Hn Hnd].
    assert (h !! n = Some 0) as Hhn by (apply Hzero; by left).
    assert (n < length h)%nat as Hlt by by eapply lookup_lt_Some.
    cbn. rewrite (Hbody n h) by (done || by left). cbn.
    destruct (IH (<[n := v n]> h)) as (h' & Hh' & Hlen & Hin & Hout).
    + done.
    + intros m h1 Hm. apply Hbody. by right.
    + intros m Hm. rewrite list_lookup_insert_ne by by intros ->.
      apply Hzero. by right.
    + exists h'. split; [done|]. split; [by rewrite Hlen, length_insert|].
      split.
      * intros m [->|Hm]%elem_of_cons; [|by apply Hin].
        rewrite Hout by done. by apply list_lookup_insert_eq.
      * intros m [Hne Hm]%not_elem_of_cons.
        rewrite Hout by done. by apply list_lookup_insert_ne.
Qed.

(** The value of [weights_henikoff_pair], row by row. *)
Lemma weights_henikoff_pair_rows (A : nat) (msa : Alignment) :
  rectangular msa → in_alphabet A msa →
  ∃ ws, weights_henikoff_pair A msa = Ok ws
        ∧ length ws = nrow msa
        ∧ ∀ n row, rows msa !! n = Some row →
            ∃ w, ws !! n = Some w ∧ w == pair_weight msa row.
Proof.
  intros Hrect Halpha.
  unfold weights_henikoff_pair.
  set (term := λ (row : list nat) (kl : nat * nat),
         1 / (Qnat (pair_count msa kl.1 kl.2 (row !!! kl.1) (row !!! kl.2))
              * Qnat (distinct_pairs msa kl.1 kl.2))).
  set (v := λ n, fold_left Qplus
                   (term (rows msa !!! n) <$> column_pairs (ncol msa)) 0).
  edestruct (foldM_store_each v) as (ws & Hws & Hlen & Hin & _);
    [apply (NoDup_seq 0 (nrow msa - 0))| | |].
  3:{ unfold range. exists ws. split; [exact Hws|].
      split; [by rewrite Hlen, length_replicate|].
      intros n row Hrow. exists (v n). split.
      - apply Hin, elem_of_seq. apply lookup_lt_Some in Hrow.
        unfold nrow. lia.
      - unfold v. rewrite fold_left_Qplus_Qsum, Qplus_0_l.
        by rewrite (list_lookup_total_correct _ _ _ Hrow). }
  - intros n h Hn Hh. cbv beta.
    apply elem_of_seq in Hn.
    destruct (lookup_lt_is_Some_2 (rows msa) n) as [row Hrow];
      [unfold nrow in Hn; lia|].
    assert (length row = ncol msa) as Hrow_len.
    { unfold rectangular in Hrect. rewrite Forall_lookup in Hrect.
      by eapply Hrect. }
    rewrite (foldM_nested
               (λ h k l, t ← pair_term msa (pair_counts A msa)
                                (pair_unique_aa (pair_counts A msa)) n k l;
                         add_at h n t)
               (λ k, range (k + 1) (ncol msa))).
    rewrite loop_pairs_column_pairs.
    rewrite (foldM_add_at
               (λ kl : nat * nat,
                  pair_term msa (pair_counts A msa)
                            (pair_unique_aa (pair_counts A msa)) n kl.1 kl.2)
               (term row) n _ h 0 Hh).
    + unfold v. by rewrite (list_lookup_total_correct _ _ _ Hrow).
    + apply Forall_forall. intros [k l] [Hkl Hl]%column_pairs_spec.
      apply (pair_term_Ok A msa n k l row); (done || lia).
  - intros n Hn%elem_of_seq. apply lookup_replicate_2. lia.
Qed.

(** C5.  For every alignment whose codes lie in the alphabet,
    [weights_henikoff_pair] returns one weight per row, and the weight of
    row [n] is the sum over the column pairs [(k, l)], [k < l], of
    [1 / (pair_counts[k,l,msa[n,k],msa[n,l]] * unique_aa[k,l])], with
    [pair_counts] the number of sequences showing the state pair and
    [unique_aa[k,l]] the number of distinct state pairs observed at
    [(k, l)]; the column pairs are listed without repetition and are
    exactly the pairs with [k < l < ncol]. *)
Theorem weights_henikoff_pair_sum (A : nat) (msa : Alignment) :
  rectangular msa → in_alphabet A msa →
  (∃ ws, weights_henikoff_pair A msa = Ok ws
         ∧ length ws = nrow msa
         ∧ ∀ n row, rows msa !! n = Some row →
             ∃ w, ws !! n = Some w ∧ w == pair_weight msa row)
  ∧ NoDup (column_pairs (ncol msa))
  ∧ ∀ k l, (k, l) ∈ column_pairs (ncol msa) ↔ (k < l ∧ l < ncol msa)%nat.
Proof.
  intros Hrect Halpha. split; [by apply weights_henikoff_pair_rows|].
  split; [apply column_pairs_NoDup|apply column_pairs_spec].
Qed.

Lemma Qsum_nonneg (ts : list Q) : Forall (λ t, 0 <= t) ts → 0 <= Qsum ts.
Proof.
  induction 1 as [|t ts Ht _ IH]; cbn; [done|].
  change 0 with (0 + 0). by apply Qplus_le_compat.
Qed.

Lemma Qnat_nonneg (n : nat) : 0 <= Qnat n.
Proof. unfold Qnat, Qle. cbn. lia. Qed.

(** The pair weights are one per row and none is negative. *)
Lemma weights_henikoff_pair_nonneg (A : nat) (msa : Alignment) :
  rectangular msa → in_alphabet A msa →
  ∃ ws, weights_henikoff_pair A msa = Ok ws
        ∧ length ws = nrow msa ∧ Forall (λ w, 0 <= w) ws.
Proof.
  intros Hrect Halpha.
  destruct (weights_henikoff_pair_rows A msa Hrect Halpha)
    as (ws & Hws & Hlen & Hrows).
  exists ws. split; [done|]. split; [done|].
  apply Forall_lookup. intros n w Hw.
  destruct (lookup_lt_is_Some_2 (rows msa) n) as [row Hrow].
  { apply lookup_lt_Some in Hw. unfold nrow in Hlen. lia. }
  destruct (Hrows n row Hrow) as (w' & Hw' & Heq).
  assert (w' = w) as -> by congruence. rewrite Heq.
  apply Qsum_nonneg, Forall_fmap, Forall_true. intros kl. cbn.
  apply Qmult_le_0_compat; [done|].
  apply Qinv_le_0_compat, Qmult_le_0_compat; apply Qnat_nonneg.
Qed.

Lemma henikoff_example_well_formed :
  rectangular henikoff_example ∧ in_alphabet 7 henikoff_example.
Proof.
  split.
  - unfold rectangular. cbn. by repeat constructor.
  - unfold in_alphabet. cbn. repeat constructor; lia.
Qed.

Lemma weights_henikoff_pair_sum_witness :
  rectangular henikoff_example ∧ in_alphabet 7 henikoff_example
  ∧ ∃ ws, weights_henikoff_pair 7 henikoff_example = Ok ws
          ∧ length ws = nrow henikoff_example
          ∧ ∀ n row, rows henikoff_example !! n = Some row →
              ∃ w, ws !! n = Some w ∧ w == pair_weight henikoff_example row.
Proof.
  split; [apply henikoff_example_well_formed|].
  split; [apply henikoff_example_well_formed|].
  exact (proj1 (weights_henikoff_pair_sum 7 henikoff_example
                  (proj1 henikoff_example_well_formed)
                  (proj2 henikoff_example_well_formed))).
Defined.

(** The pair weights of the worked example. *)
Example henikoff_example_pair_weights :
  ∃ ws, weights_henikoff_pair 7 henikoff_example = Ok ws
        ∧ veq ws [11 # 4; 31 # 12; 23 # 12; 11 # 4].
Proof. eexists. split; [vm_compute; reflexivity|]. unfold veq. veq_compute. Qed.

(** ** What [weights_henikoff] returns when gaps are counted *)

Lemma column_count_pos (msa : Alignment) (l a : nat) :
  column_count msa l a ≠ 0%nat ↔ ∃ r, r ∈ rows msa ∧ r !! l = Some a.
Proof.
  unfold column_count.
  destruct (filter _ (rows msa)) as [|r rs] eqn:Hf; cbn.
  - split; [done|]. intros (r & Hr & HP) _.
    exact (filter_nil_not_elem_of _ _ r Hf HP Hr).
  - split; [intros _|done].
    assert (r ∈ filter (λ r : list nat, r !! l = Some a) (rows msa))
      as Hr by (rewrite Hf; by left).
    apply list_elem_of_filter in Hr as [? ?]. by exists r.
Qed.

Lemma single_count_item (A : nat) (msa : Alignment) (l a : nat) :
  (l < ncol msa)%nat → (a < A)%nat →
  (r ← item (single_counts A msa) l; item r a)
  = Ok (Qnat (column_count msa l a)).
Proof.
  intros Hl Ha. unfold single_counts, item.
  rewrite list_lookup_fmap, lookup_seq_lt by done. cbn.
  by rewrite list_lookup_fmap, lookup_seq_lt.
Qed.

(** With gaps counted, no product [count * unique_aa] of an observed
    state is zero. *)
Lemma cNi_row_counting_gaps (A : nat) (msa : Alignment) (row : list nat) :
  in_alphabet A msa → row ∈ rows msa → length row = ncol msa →
  ∃ c, cNi_row (single_counts A msa) (unique_aa (single_counts A msa))
               (ncol msa) row = Ok c
       ∧ (length c = ncol msa ∧ Forall (λ x, nonzero x = true) c).
Proof.
  intros Halpha Hin Hlen.
  assert (Forall (λ c, c < A)%nat row) as Hrow.
  { unfold in_alphabet in Halpha. rewrite Forall_forall in Halpha. eauto. }
  rewrite Forall_lookup in Hrow.
  assert (∀ i l a, zip (range 0 (ncol msa)) row !! i = Some (l, a) →
                   l = i ∧ (i < ncol msa)%nat ∧ row !! i = Some a) as Hzip.
  { intros i l a (l' & a' & [= -> ->] & Hl & Ha)%lookup_zip_with_Some.
    unfold range in Hl. apply lookup_seq in Hl as [-> ?].
    split; [done|]. split; [lia|done]. }
  unfold cNi_row, take_states.
  rewrite (mapM_Ok _ (λ la, Qnat (column_count msa la.1 la.2))).
  2:{ apply Forall_lookup. intros i [l a] Hla.
      destruct (Hzip _ _ _ Hla) as (-> & Hi & Ha). cbn.
      apply single_count_item; [done|by eapply Hrow]. }
  cbn. eexists. split; [reflexivity|]. split.
  - unfold unique_aa, single_counts, range.
    rewrite length_zip_with, !length_fmap, length_zip_with, !length_seq. lia.
  - apply Forall_lookup. intros i x
      (p & q & -> & Hp & Hq)%lookup_zip_with_Some.
    apply list_lookup_fmap_Some in Hp as ([l a] & -> & Hla).
    destruct (Hzip _ _ _ Hla) as (-> & Hi & Ha). cbn.
    apply list_lookup_fmap_Some in Hq as (u & -> & Hu).
    unfold unique_aa, single_counts in Hu.
    rewrite !list_lookup_fmap, lookup_seq_lt in Hu by done.
    cbn in Hu. injection Hu as <-.
    assert (column_count msa i a ≠ 0%nat) as Hcount.
    { apply column_count_pos. by exists row. }
    apply Qmult_nonzero; apply Qnat_nonzero; [done|].
    rewrite (count_nonzero_row (column_count msa i)).
    assert (a ∈ filter (λ b, column_count msa i b ≠ 0%nat) (seq 0 A)) as Hf.
    { apply list_elem_of_filter. split; [done|].
      apply elem_of_seq. specialize (Hrow _ _ Ha). lia. }
    destruct (filter _ _); [by apply elem_of_nil in Hf|done].
Qed.

Lemma np_array_same_length (L : nat) (rs : list (list Q)) :
  Forall (λ r, length r = L) rs → np_array rs = Ok rs.
Proof.
  destruct rs as [|r rs]; [done|]. intros [Hr Hrs]%Forall_cons. cbn.
  rewrite (proj2 (forallb_forall _ _)); [done|].
  intros r' Hr'%list_elem_of_In. rewrite Forall_forall in Hrs.
  apply Nat.eqb_eq. rewrite Hr. by apply Hrs.
Qed.

Lemma delete_zeros_id (v : list Q) :
  Forall (λ x, nonzero x = true) v → delete_zeros v = v.
Proof.
  intros Hv. apply forallb_filter_id, forallb_forall.
  intros x Hx%list_elem_of_In. rewrite Forall_forall in Hv. by apply Hv.
Qed.

(** The builtin [sum] of a matrix with at least one row is a vector with
    one entry per column. *)
Lemma builtin_sum_length (L : nat) (m : list (list Q)) :
  m ≠ [] → Forall (λ r, length r = L) m →
  ∃ v, builtin_sum m = NdArray v ∧ length v = L.
Proof.
  unfold builtin_sum. destruct m as [|r m]; [done|].
  intros _ [Hr Hm]%Forall_cons. cbn.
  assert (length (Qplus (inject_Z 0) <$> r) = L) as Hacc
    by by rewrite length_fmap.
  revert Hacc. generalize (Qplus (inject_Z 0) <$> r). clear r Hr.
  induction Hm as [|r m Hr _ IH]; intros acc Hacc; cbn; [by exists acc|].
  apply IH. rewrite length_zip_with. lia.
Qed.

(** With gaps counted, [weights_henikoff] returns one entry per column of
    the alignment: the column sums of the reciprocals, not the row
    sums. *)
Lemma weights_henikoff_counting_gaps (A : nat) (msa : Alignment) :
  rectangular msa → in_alphabet A msa → (0 < nrow msa)%nat →
  ∃ v, weights_henikoff A msa true = Ok (NdArray v) ∧ length v = ncol msa.
Proof.
  intros Hrect Halpha Hrows.
  destruct (mapM_Ok_Forall
              (cNi_row (single_counts A msa) (unique_aa (single_counts A msa))
                       (ncol msa))
              (λ c, length c = ncol msa ∧ Forall (λ x, nonzero x = true) c)
              (rows msa)) as (c & Hc & Hall & Hlen).
  { apply Forall_forall. intros row Hrow.
    apply cNi_row_counting_gaps; [done|done|].
    unfold rectangular in Hrect. rewrite Forall_forall in Hrect. eauto. }
  assert (Forall (λ r, length r = ncol msa) c) as Hlens.
  { eapply Forall_impl; [exact Hall|]. by intros r [? _]. }
  assert (Forall (Forall (λ x, nonzero x = true)) c) as Hnz.
  { eapply Forall_impl; [exact Hall|]. by intros r [_ ?]. }
  assert (delete_zeros <$> c = c) as Hdel.
  { rewrite <- (list_fmap_id c) at 2. apply Forall_fmap_ext.
    eapply Forall_impl; [exact Hnz|]. intros r. apply delete_zeros_id. }
  unfold weights_henikoff, cNi, cNi_nogaps. cbn. rewrite Hc. cbn.
  rewrite (np_array_same_length _ _ Hlens). cbn.
  rewrite Hdel, (np_array_same_length _ _ Hlens). cbn.
  rewrite (reciprocal_rows _ Hnz). cbn.
  destruct (builtin_sum_length (ncol msa)
              ((λ r : list Q, (λ x, 1 / x) <$> r) <$> c))
    as (v & Hv & Hvlen).
  - intros Hnil%fmap_nil_inv. subst c. unfold nrow in Hrows.
    cbn in Hlen. lia.
  - apply Forall_fmap. eapply Forall_impl; [exact Hlens|].
    intros r Hr. cbn. by rewrite length_fmap.
  - exists v. by rewrite Hv.
Qed.

End WeightingProofs.

Module CcmgenProofs.

Import Ccmgen.

(** ** Validation of the command line *)

Lemma truthy_str_named (o : option string) :
  truthy_str o = true ↔ ∃ s, o = Some s ∧ s ≠ ""%string.
Proof.
  destruct o as [s|]; cbn.
  - rewrite negb_true_iff, String.eqb_neq. split.
    + intros Hs. by exists s.
    + by intros (s' & [= <-] & Hs).
  - split; [discriminate|]. by intros (s & ? & _).
Qed.

Lemma truthy_source_given (o : option tree_source_t) :
  truthy_source o = true ↔ o ≠ None.
Proof. destruct o; cbn; split; (done || discriminate). Qed.

Lemma tree_named_truthy (opt : options) :
  tree_named opt ↔
  truthy_source (tree_source opt) || truthy_str (tree_file opt) = true.
Proof.
  unfold tree_named.
  by rewrite orb_true_iff, truthy_source_given, truthy_str_named.
Qed.

Lemma truthy_float_zero (x : Q) : truthy_float x = false ↔ x == 0.
Proof.
  unfold truthy_float, nonzero. by rewrite negb_false_iff, Qeq_bool_iff.
Qed.

Lemma positive_spec (x : Q) : positive x = true ↔ 0 < x.
Proof.
  unfold positive.
  rewrite negb_true_iff, <- not_true_iff_false, Qle_bool_iff.
  split; [apply Qnot_le_lt|apply Qlt_not_le].
Qed.

(** C6, as the code has it.  A namespace with no MCMC flag and no tree
    option, and a namespace whose tree option names a tree (a topology, or
    a file name that is not empty) while the mutation rate is at its
    default and the Neff-matching flag is unset, end [main] in the
    parser's error with nothing done before: no alignment read, no
    potentials loaded, no sampler called. *)
Theorem missing_options_are_fatal (P : Packages) (opt : options) :
  (mcmc opt = false ∧ tree_source opt = None ∧ tree_file opt = None)
  ∨ (tree_named opt
     ∧ mutation_rate opt == 0 ∧ mutation_rate_neff opt = false) →
  ∃ msg, main P opt = {| log := []; exit := ParserError msg |}.
Proof.
  unfold main, parse_args.
  intros [(-> & -> & ->)|(Htree%tree_named_truthy & Hrate & ->)].
  - cbn. eauto.
  - apply truthy_float_zero in Hrate. rewrite Htree, Hrate. cbn.
    destruct (_ && _); eauto.
Qed.

Lemma missing_options_are_fatal_witness :
  ((mcmc opt_star_no_rate = false ∧ tree_source opt_star_no_rate = None
    ∧ tree_file opt_star_no_rate = None)
   ∨ (tree_named opt_star_no_rate
      ∧ mutation_rate opt_star_no_rate == 0
      ∧ mutation_rate_neff opt_star_no_rate = false))
  ∧ ∃ msg, main demo_packages opt_star_no_rate
           = {| log := []; exit := ParserError msg |}.
Proof.
  assert ((mcmc opt_star_no_rate = false ∧ tree_source opt_star_no_rate = None
           ∧ tree_file opt_star_no_rate = None)
          ∨ (tree_named opt_star_no_rate
             ∧ mutation_rate opt_star_no_rate == 0
             ∧ mutation_rate_neff opt_star_no_rate = false)) as H.
  { right. split; [left; discriminate|]. split; reflexivity. }
  split; [exact H|].
  exact (missing_options_are_fatal demo_packages opt_star_no_rate H).
Defined.

(** C6, as stated, fails: [--mcmc-sampling --tree-newick ""] gives a tree
    file and no mutation rate option, yet the checks pass (the empty file
    name counts as no file) and the run goes on to the MCMC sampler. *)
Lemma empty_tree_file_is_not_fatal :
  tree_given opt_mcmc_empty_tree_file
  ∧ mutation_rate opt_mcmc_empty_tree_file == 0
  ∧ mutation_rate_neff opt_mcmc_empty_tree_file = false
  ∧ parse_args opt_mcmc_empty_tree_file = inr opt_mcmc_empty_tree_file
  ∧ exit (main demo_packages opt_mcmc_empty_tree_file) = Done
  ∧ sampler_calls (main demo_packages opt_mcmc_empty_tree_file)
    = [generate_mcmc_sample 10000 500 original]
  ∧ ¬ ∃ msg, main demo_packages opt_mcmc_empty_tree_file
             = {| log := []; exit := ParserError msg |}.
Proof.
  split; [right; discriminate|].
  do 5 (split; [vm_compute; reflexivity|]).
  intros [msg H]. apply (f_equal exit) in H. vm_compute in H. discriminate.
Qed.

(** ** The choice of the sampler *)

(** A negative mutation rate is a rate for the checks and no rate for the
    choice of the sampler. *)
Lemma negative_rate_accepted (opt : options) :
  exclusive_groups opt → tree_named opt → mutation_rate opt < 0 →
  parse_args opt = inr opt
  ∧ mutation_rate_neff opt = false
  ∧ positive (mutation_rate opt) = false.
Proof.
  intros [_ Hexcl] Htree%tree_named_truthy Hneg.
  assert (truthy_float (mutation_rate opt) = true) as Hrate.
  { apply not_false_iff_true. intros H%truthy_float_zero.
    rewrite H in Hneg. by apply Qlt_irrefl in Hneg. }
  assert (mutation_rate_neff opt = false) as Hneff.
  { apply not_true_iff_false. intros H%Hexcl.
    rewrite H in Hneg. by apply Qlt_irrefl in Hneg. }
  split; [|split; [done|]].
  - unfold parse_args. rewrite Htree, Hrate, Hneff. cbn.
    destruct (_ && _) eqn:Hn; [|done].
    apply andb_true_iff in Hn as [[_ Hs%negb_true_iff]%andb_true_iff
                                   Hf%negb_true_iff].
    rewrite Hs, Hf in Htree. discriminate.
  - apply not_true_iff_false. intros H%positive_spec.
    exact (Qlt_irrefl 0 (Qlt_trans _ _ _ H Hneg)).
Qed.

(** C10, as the code has it.  A namespace whose tree option names a tree
    and whose constant mutation rate is negative passes the checks; the
    one sampler call [main] then makes is the MCMC sampler, with the
    sample count, burn-in and seed policy of the [--mcmc-*] options
    (10000, 500 and "original" unless the command line overrides them);
    without a PDB file the run reaches it. *)
Theorem negative_rate_runs_mcmc (P : Packages) (opt : options) :
  exclusive_groups opt →
  tree_named opt →
  mutation_rate opt < 0 →
  parse_args opt = inr opt
  ∧ (exit (main P opt) = Done →
     sampler_calls (main P opt)
     = [generate_mcmc_sample (mcmc_nseq opt) (mcmc_burn_in opt)
                             (mcmc_sample_type opt)])
  ∧ (truthy_str (pdbfile opt) = false → exit (main P opt) = Done).
Proof.
  intros Hexcl Htree Hneg.
  destruct (negative_rate_accepted opt Hexcl Htree Hneg)
    as (Hparse & Hneff & Hpos).
  split; [exact Hparse|].
  unfold main. rewrite Hparse. unfold main_body, sampler_calls.
  rewrite Hneff, Hpos. cbn -[zero_non_contacts].
  destruct (truthy_str (pdbfile opt)); cbn -[zero_non_contacts].
  - destruct (zero_non_contacts _ _); cbn; split; try done.
    by destruct (_ <? _)%Z.
  - split; [|done]. intros _. by destruct (_ <? _)%Z.
Qed.

Lemma negative_rate_runs_mcmc_witness :
  exclusive_groups (opt_star_negative_rate 3 5)
  ∧ tree_named (opt_star_negative_rate 3 5)
  ∧ mutation_rate (opt_star_negative_rate 3 5) < 0
  ∧ parse_args (opt_star_negative_rate 3 5) = inr (opt_star_negative_rate 3 5)
  ∧ (exit (main demo_packages (opt_star_negative_rate 3 5)) = Done →
     sampler_calls (main demo_packages (opt_star_negative_rate 3 5))
     = [generate_mcmc_sample 5 500 original])
  ∧ (truthy_str (pdbfile (opt_star_negative_rate 3 5)) = false →
     exit (main demo_packages (opt_star_negative_rate 3 5)) = Done).
Proof.
  assert (exclusive_groups (opt_star_negative_rate 3 5)) as H1.
  { split; [by left|]. cbn. discriminate. }
  assert (tree_named (opt_star_negative_rate 3 5)) as H2.
  { left. discriminate. }
  assert (mutation_rate (opt_star_negative_rate 3 5) < 0) as H3.
  { reflexivity. }
  split; [exact H1|]. split; [exact H2|]. split; [exact H3|].
  exact (negative_rate_runs_mcmc demo_packages (opt_star_negative_rate 3 5)
           H1 H2 H3).
Defined.

(** C10, as stated, fails on both counts.  With [--mcmc-nseq 5] the MCMC
    sampler is called for 5 sequences, not the default 10000; and
    [--tree-newick "" --mutation-rate -1] gives a tree file and a negative
    rate, yet is rejected by the first check. *)
Lemma negative_rate_not_always_defaults :
  (exclusive_groups (opt_star_negative_rate 3 5)
   ∧ tree_given (opt_star_negative_rate 3 5)
   ∧ mutation_rate (opt_star_negative_rate 3 5) < 0
   ∧ sampler_calls (main demo_packages (opt_star_negative_rate 3 5))
     = [generate_mcmc_sample 5 500 original]
   ∧ generate_mcmc_sample 5 500 original
     ≠ generate_mcmc_sample (mcmc_nseq (default_options "raw" "aln" "out"))
         (mcmc_burn_in (default_options "raw" "aln" "out")) original)
  ∧ (exclusive_groups opt_empty_tree_file_negative_rate
     ∧ tree_given opt_empty_tree_file_negative_rate
     ∧ mutation_rate opt_empty_tree_file_negative_rate < 0
     ∧ parse_args opt_empty_tree_file_negative_rate
       = inl "Need one of the --tree-* options or --mcmc-sampling!"%string
     ∧ main demo_packages opt_empty_tree_file_negative_rate
       = {| log := [];
            exit := ParserError
              "Need one of the --tree-* options or --mcmc-sampling!" |}).
Proof.
  split.
  - split; [split; [by left|discriminate]|].
    split; [left; discriminate|]. split; [reflexivity|].
    split; [vm_compute; reflexivity|]. discriminate.
  - split; [split; [by right|discriminate]|].
    split; [right; discriminate|]. split; [reflexivity|].
    split; vm_compute; reflexivity.
Qed.

(** ** Zeroing the couplings of non-contacts *)

Lemma coupling_block (x : tensor) i j a b :
  coupling x i j a b
  = match block x i j with
    | Some blk => match blk !! a with Some r => r !! b | None => None end
    | None => None
    end.
Proof. unfold coupling, block. by destruct (x !! i). Qed.

Lemma zeros_like_lookup (blk : list (list Q)) a b :
  match zeros_like blk !! a with Some r => r !! b | None => None end
  = (λ _ : Q, 0) <$> match blk !! a with Some r => r !! b | None => None end.
Proof.
  unfold zeros_like. rewrite list_lookup_fmap.
  destruct (blk !! a) as [r|]; cbn; [|done]. by rewrite list_lookup_fmap.
Qed.

(** [x[i0, j0, :, :] = 0] replaces the block at [(i0, j0)] and no other. *)
Lemma block_zero_block (x x' : tensor) ij i j :
  zero_block x ij = Ok x' →
  block x' i j
  = if decide ((i, j) = ij) then zeros_like <$> block x i j else block x i j.
Proof.
  destruct ij as [i0 j0]. unfold zero_block, item. cbn.
  destruct (x !! i0) as [xi|] eqn:Hxi; cbn; [|discriminate].
  destruct (xi !! j0) as [blk|] eqn:Hblk; cbn; [|discriminate].
  intros [= <-]. unfold block.
  destruct (decide (i = i0)) as [->|Hi].
  - rewrite list_lookup_insert_eq by by eapply lookup_lt_Some.
    rewrite Hxi. destruct (decide (j = j0)) as [->|Hj].
    + rewrite list_lookup_insert_eq by by eapply lookup_lt_Some.
      rewrite decide_True by done. by rewrite Hblk.
    + rewrite list_lookup_insert_ne by done.
      rewrite decide_False by congruence. done.
  - rewrite list_lookup_insert_ne by done.
    rewrite decide_False by congruence. done.
Qed.

Lemma zero_block_Ok (x : tensor) i j :
  is_Some (block x i j) → ∃ x', zero_block x (i, j) = Ok x'.
Proof.
  unfold block, zero_block, item. cbn.
  destruct (x !! i) as [xi|]; cbn; [|by intros [? ?]].
  destruct (xi !! j) as [blk|]; cbn; [|by intros [? ?]]. eauto.
Qed.

(** The loop over the index pairs: the named blocks are zeroed, the
    others kept. *)
Lemma block_zero_blocks ijs : ∀ (x x' : tensor) i j,
  foldM zero_block x ijs = Ok x' →
  block x' i j
  = if decide ((i, j) ∈ ijs) then zeros_like <$> block x i j
    else block x i j.
Proof.
  induction ijs as [|ij ijs IH]; intros x x' i j.
  - intros [= <-]. rewrite decide_False; [done|]. apply not_elem_of_nil.
  - cbn. destruct (zero_block x ij) as [x1|] eqn:H1; cbn; [|discriminate].
    intros H. rewrite (IH _ _ _ _ H), (block_zero_block _ _ _ i j H1).
    destruct (decide ((i, j) = ij)) as [<-|Hne].
    + rewrite (decide_True (P := (i, j) ∈ (i, j) :: ijs)) by by left.
      destruct (decide ((i, j) ∈ ijs)); [|done].
      destruct (block x i j) as [blk|]; cbn; [|done].
      f_equal. unfold zeros_like. rewrite <- list_fmap_compose.
      apply list_fmap_ext. intros _ r _. cbn.
      rewrite <- list_fmap_compose. done.
    + destruct (decide ((i, j) ∈ ijs)) as [Hin|Hin].
      * rewrite decide_True by by right. done.
      * rewrite decide_False; [done|].
        intros [?|?]%elem_of_cons; congruence.
Qed.

Lemma zero_blocks_Ok ijs : ∀ x : tensor,
  (∀ i j, (i, j) ∈ ijs → is_Some (block x i j)) →
  ∃ x', foldM zero_block x ijs = Ok x'.
Proof.
  induction ijs as [|[i0 j0] ijs IH]; intros x Hin; [by eexists|].
  destruct (zero_block_Ok x i0 j0) as [x1 H1]; [apply Hin; by left|].
  cbn. rewrite H1. cbn. apply IH. intros i j Hij.
  rewrite (block_zero_block _ _ _ i j H1).
  case_decide; [apply fmap_is_Some|]; apply Hin; by right.
Qed.

Lemma coupling_zero_blocks ijs (x x' : tensor) i j a b :
  foldM zero_block x ijs = Ok x' →
  coupling x' i j a b
  = if decide ((i, j) ∈ ijs) then (λ _ : Q, 0) <$> coupling x i j a b
    else coupling x i j a b.
Proof.
  intros H. rewrite !coupling_block, (block_zero_blocks _ _ _ i j H).
  case_decide; [|done].
  destruct (block x i j) as [blk|]; cbn; [|done]. apply zeros_like_lookup.
Qed.

(** Index arrays that name [(j, i)] whenever they name [(i, j)], every
    named pair in range: the assignment [x_pair[I, J, :, :] = 0] succeeds
    and the tensor it leaves is again symmetric with zero self-coupling;
    the named blocks are zero and all other cells are unchanged. *)
Lemma zero_symmetric_pairs
    (idx : list nat * list nat) (ijs : list (nat * nat)) (x : tensor) :
  symmetric x → zero_self_coupling x →
  broadcast_indices idx.1 idx.2 = Ok ijs →
  (∀ i j, (i, j) ∈ ijs → (j, i) ∈ ijs ∧ is_Some (block x i j)) →
  ∃ x', zero_non_contacts idx x = Ok x'
        ∧ symmetric x' ∧ zero_self_coupling x'
        ∧ ∀ i j a b,
            coupling x' i j a b
            = if decide ((i, j) ∈ ijs) then (λ _ : Q, 0) <$> coupling x i j a b
              else coupling x i j a b.
Proof.
  intros Hsym Hself Hidx Hijs. unfold zero_non_contacts. rewrite Hidx. cbn.
  destruct (zero_blocks_Ok ijs x) as [x' Hx']; [intros; by apply Hijs|].
  exists x'. split; [done|].
  pose proof (λ i j a b, coupling_zero_blocks ijs x x' i j a b Hx') as Hc.
  split; [|split; [|done]].
  - intros i j a b. rewrite !Hc, (Hsym i j a b).
    destruct (decide ((i, j) ∈ ijs)) as [Hin|Hin].
    + rewrite decide_True; [done|]. by apply Hijs.
    + rewrite decide_False; [done|]. intros Hji. apply Hin. by apply Hijs.
  - intros i a b v. rewrite Hc. case_decide.
    + destruct (coupling x i i a b); cbn; [|done]. by intros [= <-].
    + apply Hself.
Qed.

Lemma two_column_tensor_symmetric :
  symmetric two_column_tensor ∧ zero_self_coupling two_column_tensor.
Proof.
  split.
  - intros i j a b.
    destruct i as [|[|i]], j as [|[|j]], a as [|a], b as [|b]; reflexivity.
  - intros i a b v.
    destruct i as [|[|i]], a as [|a], b as [|b]; cbn; try discriminate;
      by intros [= <-].
Qed.

(** The two arrays of [np.where] have one length and pair up position by
    position. *)
Lemma broadcast_indices_np_where (mask : list (list bool)) :
  broadcast_indices (np_where mask).1 (np_where mask).2
  = Ok (true_cells mask).
Proof.
  unfold np_where. cbn [fst snd].
  destruct (true_cells mask) as [|[i j] [|[i' j'] ijs]]; [done|done|].
  cbn. rewrite decide_True by by rewrite !length_fmap.
  by rewrite zip_fst_snd.
Qed.

Lemma elem_of_true_cells (mask : list (list bool)) (i j : nat) :
  (i, j) ∈ true_cells mask
  ↔ ∃ row, mask !! i = Some row ∧ row !! j = Some true.
Proof.
  unfold true_cells. rewrite list_elem_of_bind. split.
  - intros (i' & (j' & [= -> ->] & [Hj _]%list_elem_of_filter)
             %list_elem_of_fmap & Hi'%elem_of_seq).
    destruct (lookup_lt_is_Some_2 mask i') as [row Hrow]; [lia|].
    exists row. split; [done|].
    by rewrite (list_lookup_total_correct _ _ _ Hrow) in Hj.
  - intros (row & Hrow & Hj). exists i. split.
    + apply list_elem_of_fmap. exists j. split; [done|].
      apply list_elem_of_filter.
      rewrite (list_lookup_total_correct _ _ _ Hrow). split; [done|].
      apply elem_of_seq. apply lookup_lt_Some in Hj. lia.
    + apply elem_of_seq. apply lookup_lt_Some in Hrow. lia.
Qed.

(** The pairs that [read_pdb] names are the pairs of columns that are
    further apart than the threshold. *)
Lemma elem_of_non_contacts (d : list (list Q)) (thr : Z) (i j : nat) :
  (i, j) ∈ true_cells (greater d thr) ↔ far d thr i j = true.
Proof.
  rewrite elem_of_true_cells. unfold greater, far, distance.
  rewrite list_lookup_fmap. destruct (d !! i) as [row|]; cbn.
  - split.
    + intros (row' & [= <-] & Hj). rewrite list_lookup_fmap in Hj.
      destruct (row !! j); cbn in Hj; [by injection Hj|done].
    + intros Hj. eexists. split; [done|]. rewrite list_lookup_fmap.
      destruct (row !! j); cbn; [by rewrite Hj|done].
  - split; [by intros (? & ? & _)|done].
Qed.

(** C7.  For every symmetric coupling tensor with zero self-coupling and
    every contact mask, the zeroing of the non-contacts on line 128 keeps
    the invariant [pair[i,j,a,b] == pair[j,i,b,a]].  The mask is the one
    [main] describes on line 127: the pairs of columns further apart than
    the threshold, in a map of distances over the columns of the tensor.
    The assignment succeeds and leaves a symmetric tensor with zero
    self-coupling, in which the blocks of the non-contacts are zero and
    all other cells are unchanged. *)
Theorem contact_mask_keeps_symmetry
    (x : tensor) (d : list (list Q)) (thr : Z) :
  symmetric x → zero_self_coupling x →
  distance_map d →
  (∀ i j, is_Some (distance d i j) → is_Some (block x i j)) →
  ∃ x', zero_non_contacts (non_contacts d thr) x = Ok x'
        ∧ symmetric x' ∧ zero_self_coupling x'
        ∧ ∀ i j a b,
            coupling x' i j a b
            = if far d thr i j then (λ _ : Q, 0) <$> coupling x i j a b
              else coupling x i j a b.
Proof.
  intros Hsym Hself Hd Hshape.
  destruct (zero_symmetric_pairs (non_contacts d thr)
              (true_cells (greater d thr)) x Hsym Hself
              (broadcast_indices_np_where _))
    as (x' & Hx' & Hsym' & Hself' & Hcells).
  - intros i j Hij%elem_of_non_contacts. split.
    + apply elem_of_non_contacts. unfold far in *. by rewrite <- (Hd i j).
    + apply Hshape. unfold far in Hij. by destruct (distance d i j).
  - exists x'. split; [done|]. split; [done|]. split; [done|].
    intros i j a b. rewrite Hcells.
    destruct (far d thr i j) eqn:Hfar.
    + rewrite decide_True; [done|]. by apply elem_of_non_contacts.
    + rewrite decide_False; [done|].
      intros Hin%elem_of_non_contacts. congruence.
Qed.

Lemma contact_mask_keeps_symmetry_witness :
  symmetric two_column_tensor ∧ zero_self_coupling two_column_tensor
  ∧ distance_map two_residue_distances
  ∧ non_contacts two_residue_distances 8 = two_sided_indices
  ∧ ∃ x', zero_non_contacts (non_contacts two_residue_distances 8)
                            two_column_tensor = Ok x'
          ∧ symmetric x' ∧ zero_self_coupling x'.
Proof.
  assert (distance_map two_residue_distances) as Hd.
  { intros i j. destruct i as [|[|i]], j as [|[|j]]; reflexivity. }
  assert (∀ i j, is_Some (distance two_residue_distances i j) →
                 is_Some (block two_column_tensor i j)) as Hshape.
  { intros i j. destruct i as [|[|i]], j as [|[|j]]; cbn;
      try (by intros [? ?]); by eexists. }
  split; [apply two_column_tensor_symmetric|].
  split; [apply two_column_tensor_symmetric|].
  split; [exact Hd|]. split; [reflexivity|].
  destruct (contact_mask_keeps_symmetry two_column_tensor
              two_residue_distances 8
              (proj1 two_column_tensor_symmetric)
              (proj2 two_column_tensor_symmetric) Hd Hshape)
    as (x' & H1 & H2 & H3 & _).
  exists x'. done.
Defined.

(** The symmetry of the distances is what the invariant rests on: index
    arrays written by hand that name the pair [(0, 1)] but not [(1, 0)],
    which no map of distances gives, leave [pair[0,1,0,0] = 0] next to
    [pair[1,0,0,0] = 5]. *)
Example one_sided_indices_lose_symmetry :
  symmetric two_column_tensor ∧ zero_self_coupling two_column_tensor
  ∧ ∃ x', zero_non_contacts one_sided_indices two_column_tensor = Ok x'
          ∧ coupling x' 0 1 0 0 = Some 0
          ∧ coupling x' 1 0 0 0 = Some 5
          ∧ ¬ symmetric x'.
Proof.
  split; [apply two_column_tensor_symmetric|].
  split; [apply two_column_tensor_symmetric|].
  eexists. split; [vm_compute; reflexivity|].
  split; [reflexivity|]. split; [reflexivity|].
  intros H. specialize (H 0 1 0 0)%nat. discriminate.
Qed.

(** ** The identifiers handed to the writer *)

Lemma demo_packages_as_documented : packages_as_documented demo_packages.
Proof.
  split.
  - intros tree ccm x size b t. cbn. unfold nrow. cbn.
    apply length_replicate.
  - intros n source. cbn. unfold leaf_names.
    by rewrite length_fmap, length_seq.
  - done.
Qed.

(** C8.  On an MCMC run the identifiers handed to [write_msa] are the
    leaf identifiers of the tree, not one identifier per row of the
    sampled alignment.  With packages that behave as documented, a
    generated tree of [nseq] leaves and a negative mutation rate, the
    MCMC sampler returns [mcmc_nseq] rows while the writer receives
    [nseq] identifiers. *)
Theorem mcmc_run_is_written_with_tree_ids
    (P : Packages) (opt : options) (source : tree_source_t) :
  packages_as_documented P →
  tree_source opt = Some source → tree_file opt = None →
  mutation_rate opt < 0 → mutation_rate_neff opt = false →
  truthy_str (pdbfile opt) = false →
  (0 < nseq opt)%Z → (0 <= mcmc_nseq opt)%Z → nseq opt ≠ mcmc_nseq opt →
  exit (main P opt) = Done
  ∧ sampler_calls (main P opt)
    = [generate_mcmc_sample (mcmc_nseq opt) (mcmc_burn_in opt)
                            (mcmc_sample_type opt)]
  ∧ ∃ nrows ids,
      written (main P opt) = [(nrows, ids)]
      ∧ nrows = Z.to_nat (mcmc_nseq opt)
      ∧ length ids = Z.to_nat (nseq opt)
      ∧ length ids ≠ nrows.
Proof.
  intros [Hmcmc Hids Hback] Hsrc Hfile Hneg Hneff Hpdb Hn Hm Hne.
  destruct (negative_rate_accepted opt) as (Hparse & _ & Hpos); [| |done|].
  { split; [by left|]. rewrite Hneff. discriminate. }
  { left. rewrite Hsrc. discriminate. }
  unfold main. rewrite Hparse.
  unfold main_body, sampler_calls, written.
  rewrite Hneff, Hpos, Hpdb, Hsrc, Hfile.
  assert ((nseq opt =? 0)%Z = false) as -> by lia.
  cbn. split; [done|]. split; [by destruct (_ <? _)%Z|].
  destruct (_ <? _)%Z; cbn; eexists _, _; (split; [reflexivity|]);
    rewrite ?Hback, Hmcmc, Hids; (split; [done|]); (split; [done|]); lia.
Qed.

Lemma mcmc_run_is_written_with_tree_ids_witness :
  packages_as_documented demo_packages
  ∧ mutation_rate (opt_star_negative_rate 3 10000) < 0
  ∧ exit (main demo_packages (opt_star_negative_rate 3 10000)) = Done
  ∧ sampler_calls (main demo_packages (opt_star_negative_rate 3 10000))
    = [generate_mcmc_sample 10000 500 original]
  ∧ ∃ nrows ids,
      written (main demo_packages (opt_star_negative_rate 3 10000))
      = [(nrows, ids)]
      ∧ nrows = Z.to_nat 10000
      ∧ length ids = Z.to_nat 3
      ∧ length ids ≠ nrows.
Proof.
  split; [exact demo_packages_as_documented|]. split; [reflexivity|].
  apply (mcmc_run_is_written_with_tree_ids demo_packages
           (opt_star_negative_rate 3 10000) star);
    [exact demo_packages_as_documented|reflexivity|reflexivity|reflexivity
    |reflexivity|reflexivity|reflexivity|discriminate|discriminate].
Defined.

(** On every run that gets to write, the identifiers are those of the
    tree, whichever sampler ran. *)
Lemma written_ids_are_tree_ids (P : Packages) (opt : options) nrows ids :
  (nrows, ids) ∈ written (main P opt) →
  ∃ n, ids = tree_ids P (specify_tree P n (tree_file opt) (tree_source opt)).
Proof.
  unfold main. destruct (parse_args opt) as [msg|opt'] eqn:Hp.
  { cbn. by intros ?%elem_of_nil. }
  assert (opt' = opt) as ->.
  { unfold parse_args in Hp. by repeat destruct (_ && _); simplify_eq. }
  unfold main_body, written.
  destruct (truthy_str (pdbfile opt)); cbn -[zero_non_contacts].
  - destruct (zero_non_contacts _ _); cbn.
    + destruct (_ <? _)%Z; cbn; intros [= _ ->]%list_elem_of_singleton; eauto.
    + by intros ?%elem_of_nil.
  - destruct (_ <? _)%Z; cbn; intros [= _ ->]%list_elem_of_singleton; eauto.
Qed.

(** A plain [--mcmc-sampling] run: the identifiers are fixed before the
    sampler runs and do not follow [--mcmc-nseq], the number of rows
    does.  Two sample counts get the same identifiers, so at most one of
    them gets as many identifiers as rows. *)
Lemma mcmc_ids_ignore_sample_count (P : Packages) (opt : options) (s1 s2 : Z) :
  packages_as_documented P →
  mcmc opt = true → tree_file opt = None → tree_source opt = None →
  mutation_rate opt == 0 → mutation_rate_neff opt = false →
  truthy_str (pdbfile opt) = false →
  ∃ ids,
    written (main P (with_mcmc_nseq opt s1)) = [(Z.to_nat s1, ids)]
    ∧ written (main P (with_mcmc_nseq opt s2)) = [(Z.to_nat s2, ids)].
Proof.
  intros [Hmcmc _ Hback] Hm Hfile Hsrc Hrate Hneff Hpdb.
  assert (positive (mutation_rate opt) = false) as Hpos.
  { apply not_true_iff_false. intros H%positive_spec.
    rewrite Hrate in H. by apply Qlt_irrefl in H. }
  assert (∀ s, parse_args (with_mcmc_nseq opt s) = inr (with_mcmc_nseq opt s))
    as Hparse.
  { intros s. unfold parse_args. cbn. by rewrite Hm, Hfile, Hsrc. }
  eexists. unfold main. rewrite !Hparse. unfold main_body, written. cbn.
  rewrite Hneff, Hpos, Hpdb. cbn.
  destruct (_ <? _)%Z; cbn; rewrite ?Hback, !Hmcmc; split; reflexivity.
Qed.

End CcmgenProofs.

(** * Further properties of the weighting functions *)

Module WeightingExtras.

Import Weighting WeightingProofs.

(** ** Sums of rationals *)

Lemma Qsum_nil : Qsum [] = 0.
Proof. reflexivity. Qed.

Lemma Qsum_cons (t : Q) (ts : list Q) : Qsum (t :: ts) = t + Qsum ts.
Proof. reflexivity. Qed.

Lemma Qnat_S (n : nat) : Qnat (S n) == Qnat n + 1.
Proof.
  unfold Qnat. by rewrite Nat2Z.inj_succ, <- Z.add_1_r, inject_Z_plus.
Qed.

(** ** The pair weights are bounded by the number of column pairs *)

Lemma row_lookup (msa : Alignment) (row : list nat) (k : nat) :
  rectangular msa → row ∈ rows msa → (k < ncol msa)%nat →
  row !! k = Some (row !!! k).
Proof.
  intros Hrect Hrow Hk. unfold rectangular in Hrect.
  rewrite Forall_forall in Hrect. specialize (Hrect row Hrow).
  apply list_lookup_lookup_total_lt. lia.
Qed.

Lemma length_loop_pairs (L n : nat) :
  (n ≤ L)%nat →
  (2 * length (k ← seq 0 n; (λ l, (k, l)) <$> seq (k + 1) (L - (k + 1)))
   + n * (n + 1)
   = 2 * n * L)%nat.
Proof.
  induction n as [|n IH]; intros Hn; [reflexivity|].
  rewrite seq_S, bind_app, length_app.
  change ([(0 + n)%nat] ≫= ?f) with (f (0 + n)%nat ++ []). cbv beta.
  rewrite app_nil_r, length_fmap, length_seq.
  specialize (IH ltac:(lia)). nia.
Qed.

(** Among [L] columns there are [L (L - 1) / 2] pairs. *)
Lemma length_column_pairs (L : nat) :
  (2 * length (column_pairs L) = L * (L - 1))%nat.
Proof.
  rewrite <- loop_pairs_column_pairs. unfold range.
  pose proof (length_loop_pairs L (L - 1 - 0) ltac:(lia)) as H.
  destruct L as [|L]; [reflexivity|].
  replace (S L - 1 - 0)%nat with L in * by lia. nia.
Qed.

Lemma Qnat_ge_1 (n : nat) : n ≠ 0%nat → 1 <= Qnat n.
Proof. unfold Qnat, Qle. cbn. lia. Qed.

Lemma Qsum_le_length (ts : list Q) :
  Forall (λ t, t <= 1) ts → Qsum ts <= Qnat (length ts).
Proof.
  induction 1 as [|t ts Ht _ IH].
  - rewrite Qsum_nil. apply Qle_refl.
  - rewrite Qsum_cons. cbn [length]. rewrite Qnat_S, (Qplus_comm (Qnat _)).
    by apply Qplus_le_compat.
Qed.

(** The reciprocal of a product of two counts that are not zero is at
    most [1]. *)
Lemma reciprocal_le_1 (c u : nat) :
  c ≠ 0%nat → u ≠ 0%nat → 1 / (Qnat c * Qnat u) <= 1.
Proof.
  intros Hc Hu.
  assert (1 <= Qnat c * Qnat u) as H1.
  { rewrite <- (Qmult_1_l 1) at 1.
    apply Qmult_le_compat_nonneg; split;
      (done || by apply Qnat_ge_1). }
  apply Qle_shift_div_r.
  - by apply Qlt_le_trans with 1.
  - by rewrite Qmult_1_l.
Qed.

(** X4.  The pair weight of a sequence is at most the number of column
    pairs, [L (L - 1) / 2] for [L] columns: each of the terms
    [1 / (pair_counts * unique_aa)] that lines 70-72 add is at most
    [1]. *)
Theorem weights_henikoff_pair_bounded (A : nat) (msa : Alignment) :
  rectangular msa → in_alphabet A msa →
  ∃ ws, weights_henikoff_pair A msa = Ok ws
        ∧ length ws = nrow msa
        ∧ Forall (λ w, w <= Qnat (length (column_pairs (ncol msa)))) ws
        ∧ (2 * length (column_pairs (ncol msa))
           = ncol msa * (ncol msa - 1))%nat.
Proof.
  intros Hrect Halpha.
  destruct (weights_henikoff_pair_rows A msa Hrect Halpha)
    as (ws & Hws & Hlen & Hrows).
  exists ws. split; [done|]. split; [done|].
  split; [|apply length_column_pairs].
  apply Forall_lookup. intros n w Hw.
  destruct (lookup_lt_is_Some_2 (rows msa) n) as [row Hrow].
  { apply lookup_lt_Some in Hw. unfold nrow in Hlen. lia. }
  destruct (Hrows n row Hrow) as (w' & Hw' & Heq).
  assert (w' = w) as -> by congruence. rewrite Heq.
  assert (row ∈ rows msa) as Hin by by eapply list_elem_of_lookup_2.
  unfold pair_weight.
  rewrite <- (length_fmap
                (λ kl : nat * nat,
                   1 / (Qnat (pair_count msa kl.1 kl.2
                                (row !!! kl.1) (row !!! kl.2))
                        * Qnat (distinct_pairs msa kl.1 kl.2)))
                (column_pairs (ncol msa))).
  apply Qsum_le_length, Forall_fmap, Forall_forall.
  intros [k l] [Hkl Hl]%column_pairs_spec. cbn.
  apply reciprocal_le_1.
  - apply pair_count_pos. exists row.
    by rewrite !(row_lookup msa row) by (done || lia).
  - unfold distinct_pairs.
    assert ((row !!! k, row !!! l)
            ∈ remove_dups (states_at msa k l)) as Hab.
    { apply elem_of_remove_dups, states_at_spec. exists row.
      by rewrite !(row_lookup msa row) by (done || lia). }
    destruct (remove_dups _); [by apply elem_of_nil in Hab|done].
Qed.

Lemma weights_henikoff_pair_bounded_witness :
  rectangular henikoff_example ∧ in_alphabet 7 henikoff_example
  ∧ ∃ ws, weights_henikoff_pair 7 henikoff_example = Ok ws
          ∧ length ws = nrow henikoff_example
          ∧ Forall (λ w, w <= Qnat (length (column_pairs
                                              (ncol henikoff_example)))) ws
          ∧ (2 * length (column_pairs (ncol henikoff_example))
             = ncol henikoff_example * (ncol henikoff_example - 1))%nat.
Proof.
  split; [apply henikoff_example_well_formed|].
  split; [apply henikoff_example_well_formed|].
  apply (weights_henikoff_pair_bounded 7 henikoff_example);
    apply henikoff_example_well_formed.
Defined.

(** ** Edge cases of the pair weights *)

(** X5.  With fewer than two columns there is no column pair: the loops
    of [weights_henikoff_pair] do not run and every sequence gets weight
    [0], whatever the alignment holds. *)
Theorem weights_henikoff_pair_few_columns (A : nat) (msa : Alignment) :
  (ncol msa ≤ 1)%nat →
  weights_henikoff_pair A msa = Ok (replicate (nrow msa) 0).
Proof.
  intros Hcol. unfold weights_henikoff_pair.
  assert (range 0 (ncol msa - 1) = []) as ->.
  { unfold range. by replace (ncol msa - 1 - 0)%nat with 0%nat by lia. }
  generalize (replicate (nrow msa) 0). generalize (range 0 (nrow msa)).
  intros ns. induction ns as [|n ns IH]; intros h; [reflexivity|].
  cbn. apply IH.
Qed.

Lemma weights_henikoff_pair_few_columns_witness :
  (ncol single_column_example ≤ 1)%nat
  ∧ weights_henikoff_pair 21 single_column_example = Ok [0; 0].
Proof.
  split; [cbn; lia|].
  apply (weights_henikoff_pair_few_columns 21 single_column_example).
  cbn. lia.
Defined.

Lemma Qsum_pos (ts : list Q) :
  ts ≠ [] → Forall (λ t, 0 < t) ts → 0 < Qsum ts.
Proof.
  intros Hne Hts. destruct Hts as [|t ts Ht Hts]; [done|].
  rewrite Qsum_cons. apply Qlt_le_trans with (t + 0).
  - by rewrite Qplus_0_r.
  - apply Qplus_le_compat; [apply Qle_refl|].
    apply Qsum_nonneg. eapply Forall_impl; [exact Hts|].
    intros x. apply Qlt_le_weak.
Qed.

Lemma Qnat_pos (n : nat) : n ≠ 0%nat → 0 < Qnat n.
Proof. unfold Qnat, Qlt. cbn. lia. Qed.

(** X6.  With at least two columns every sequence gets a strictly
    positive pair weight. *)
Theorem weights_henikoff_pair_positive (A : nat) (msa : Alignment) :
  rectangular msa → in_alphabet A msa → (2 ≤ ncol msa)%nat →
  ∃ ws, weights_henikoff_pair A msa = Ok ws
        ∧ length ws = nrow msa ∧ Forall (λ w, 0 < w) ws.
Proof.
  intros Hrect Halpha Hcol.
  destruct (weights_henikoff_pair_rows A msa Hrect Halpha)
    as (ws & Hws & Hlen & Hrows).
  exists ws. split; [done|]. split; [done|].
  apply Forall_lookup. intros n w Hw.
  destruct (lookup_lt_is_Some_2 (rows msa) n) as [row Hrow].
  { apply lookup_lt_Some in Hw. unfold nrow in Hlen. lia. }
  destruct (Hrows n row Hrow) as (w' & Hw' & Heq).
  assert (w' = w) as -> by congruence. rewrite Heq.
  assert (row ∈ rows msa) as Hin by by eapply list_elem_of_lookup_2.
  apply Qsum_pos.
  - intros Hnil%fmap_nil_inv.
    assert ((0, 1)%nat ∈ column_pairs (ncol msa)) as H01
      by (apply column_pairs_spec; lia).
    rewrite Hnil in H01. by apply elem_of_nil in H01.
  - apply Forall_fmap, Forall_forall.
    intros [k l] [Hkl Hl]%column_pairs_spec. cbn.
    apply Qmult_lt_0_compat; [done|].
    apply Qinv_lt_0_compat, Qmult_lt_0_compat; apply Qnat_pos.
    + apply pair_count_pos. exists row.
      by rewrite !(row_lookup msa row) by (done || lia).
    + unfold distinct_pairs.
      assert ((row !!! k, row !!! l)
              ∈ remove_dups (states_at msa k l)) as Hab.
      { apply elem_of_remove_dups, states_at_spec. exists row.
        by rewrite !(row_lookup msa row) by (done || lia). }
      destruct (remove_dups _); [by apply elem_of_nil in Hab|done].
Qed.

Lemma weights_henikoff_pair_positive_witness :
  rectangular henikoff_example ∧ in_alphabet 7 henikoff_example
  ∧ (2 ≤ ncol henikoff_example)%nat
  ∧ ∃ ws, weights_henikoff_pair 7 henikoff_example = Ok ws
          ∧ length ws = nrow henikoff_example ∧ Forall (λ w, 0 < w) ws.
Proof.
  split; [apply henikoff_example_well_formed|].
  split; [apply henikoff_example_well_formed|].
  split; [cbn; lia|].
  apply (weights_henikoff_pair_positive 7 henikoff_example);
    [apply henikoff_example_well_formed|apply henikoff_example_well_formed
    |cbn; lia].
Defined.

(** ** Edge cases of the single-site weights *)

(** X3.  On an alignment without sequences [weights_henikoff] returns the
    start value of the builtin [sum], the integer [0], not an array
    (the table of counts needs a state [0] to clear when gaps are not
    counted). *)
Theorem weights_henikoff_no_rows
    (A : nat) (msa : Alignment) (count_gaps : bool) :
  rows msa = [] → count_gaps = true ∨ (0 < A)%nat →
  weights_henikoff A msa count_gaps = Ok (PyInt 0).
Proof.
  intros Hrows HA. unfold weights_henikoff, cNi, clear_state0.
  rewrite Hrows. destruct count_gaps; [reflexivity|].
  destruct HA as [?|HA]; [done|].
  destruct (decide (A = 0)%nat); [lia|reflexivity].
Qed.

Lemma weights_henikoff_no_rows_witness :
  rows no_rows_example = [] ∧ (false = true ∨ (0 < 21)%nat)
  ∧ weights_henikoff 21 no_rows_example false = Ok (PyInt 0).
Proof.
  split; [reflexivity|]. split; [right; lia|].
  apply (weights_henikoff_no_rows 21 no_rows_example false);
    [reflexivity|right; lia].
Defined.

(** ** The single-site weights with gaps counted *)

(** The products [count * unique_aa] of one sequence, column by column. *)
Lemma cNi_row_explicit (A : nat) (msa : Alignment) (row : list nat) :
  rectangular msa → in_alphabet A msa → row ∈ rows msa →
  cNi_row (single_counts A msa) (unique_aa (single_counts A msa))
          (ncol msa) row
  = Ok ((λ l, Qnat (column_count msa l (row !!! l))
              * Qnat (length (filter (λ a, column_count msa l a ≠ 0%nat)
                                     (seq 0 A))))
          <$> seq 0 (ncol msa)).
Proof.
  intros Hrect Halpha Hin.
  assert (Forall (λ c, c < A)%nat row) as Hrow.
  { unfold in_alphabet in Halpha. rewrite Forall_forall in Halpha. eauto. }
  rewrite Forall_lookup in Hrow.
  unfold cNi_row, take_states, range. rewrite Nat.sub_0_r.
  rewrite (mapM_Ok _ (λ la, Qnat (column_count msa la.1 la.2))).
  2:{ apply Forall_lookup. intros i [l a]
        (l' & a' & [= -> ->] & Hl & Ha)%lookup_zip_with_Some.
      apply lookup_seq in Hl as [-> ?]. cbn.
      apply single_count_item; [lia|by eapply Hrow]. }
  cbn. f_equal. apply list_eq. intros i.
  rewrite lookup_zip_with, !list_lookup_fmap, lookup_zip_with.
  destruct (decide (i < ncol msa)%nat) as [Hi|Hi].
  - rewrite lookup_seq_lt, (row_lookup msa row i) by done. cbn.
    unfold unique_aa, single_counts.
    rewrite !list_lookup_fmap, lookup_seq_lt by done. cbn.
    by rewrite (count_nonzero_row (column_count msa i)).
  - by rewrite !lookup_seq_ge by lia.
Qed.

(** The builtin [sum] of a matrix given entry by entry: the vector of
    its column sums. *)
Lemma builtin_sum_columns {X} (f : X → nat → Q) (L : nat) (xs : list X) :
  xs ≠ [] →
  ∃ v, builtin_sum ((λ x, f x <$> seq 0 L) <$> xs) = NdArray v
       ∧ length v = L
       ∧ ∀ l w, v !! l = Some w → w == Qsum ((λ x, f x l) <$> xs).
Proof.
  destruct xs as [|x xs]; [done|]. intros _. unfold builtin_sum.
  rewrite fmap_cons. cbn [fold_left py_add].
  rewrite <- list_fmap_compose.
  assert (∀ (g : nat → Q) ys,
            fold_left py_add ((λ y, f y <$> seq 0 L) <$> ys)
                      (NdArray (g <$> seq 0 L))
            = NdArray ((λ l, fold_left Qplus ((λ y, f y l) <$> ys) (g l))
                         <$> seq 0 L)) as Hfold.
  { intros g ys. revert g. induction ys as [|y ys IH]; intros g; [done|].
    rewrite fmap_cons. cbn [fold_left py_add].
    rewrite zip_with_fmap_l, zip_with_fmap_r, zip_with_diag.
    by rewrite (IH (λ l, g l + f y l)). }
  rewrite (Hfold (Qplus (inject_Z 0) ∘ f x) xs).
  eexists. split; [reflexivity|]. split; [by rewrite length_fmap, length_seq|].
  intros l w (l' & -> & Hl)%list_lookup_fmap_Some.
  apply lookup_seq in Hl as [-> _].
  rewrite fold_left_Qplus_Qsum, fmap_cons, Qsum_cons. cbn. ring.
Qed.

(** X1.  With gaps counted, [weights_henikoff] returns, for every
    alignment with at least one sequence, a vector with one entry per
    column, not per sequence, and every entry is strictly positive:
    line 36 adds up, column by column, the reciprocals
    [1 / (count * unique_aa)] of all sequences. *)
Theorem weights_henikoff_counting_gaps_per_column
    (A : nat) (msa : Alignment) :
  rectangular msa → in_alphabet A msa → (0 < nrow msa)%nat →
  ∃ v, weights_henikoff A msa true = Ok (NdArray v)
       ∧ length v = ncol msa ∧ Forall (λ w, 0 < w) v.
Proof.
  intros Hrect Halpha Hrows.
  assert (rows msa ≠ []) as Hne.
  { unfold nrow in Hrows. destruct (rows msa); [cbn in Hrows; lia|done]. }
  set (d := λ l, length (filter (λ a, column_count msa l a ≠ 0%nat) (seq 0 A))).
  set (c := λ row : list nat,
         (λ l, Qnat (column_count msa l (row !!! l)) * Qnat (d l))
           <$> seq 0 (ncol msa)).
  assert (mapM (cNi_row (single_counts A msa)
                        (unique_aa (single_counts A msa)) (ncol msa))
               (rows msa) = Ok (c <$> rows msa)) as Hc.
  { apply mapM_Ok, Forall_forall. intros row Hrow.
    by apply cNi_row_explicit. }
  assert (Forall (λ r, length r = ncol msa) (c <$> rows msa)) as Hlens.
  { apply Forall_fmap, Forall_true. intros row. cbn. unfold c.
    by rewrite length_fmap, length_seq. }
  assert (Forall (Forall (λ x, nonzero x = true)) (c <$> rows msa)) as Hnz.
  { apply Forall_fmap, Forall_forall. intros row Hrow. cbn.
    destruct (cNi_row_counting_gaps A msa row) as (c' & Hc' & _ & Hnz');
      [done|done| |].
    - unfold rectangular in Hrect. rewrite Forall_forall in Hrect. eauto.
    - rewrite (cNi_row_explicit A msa row) in Hc' by done.
      by injection Hc' as <-. }
  assert (delete_zeros <$> (c <$> rows msa) = c <$> rows msa) as Hdel.
  { rewrite <- (list_fmap_id (c <$> rows msa)) at 2. apply Forall_fmap_ext.
    eapply Forall_impl; [exact Hnz|]. intros r. apply delete_zeros_id. }
  unfold weights_henikoff, cNi, cNi_nogaps. cbn. rewrite Hc. cbn.
  rewrite (np_array_same_length _ _ Hlens). cbn.
  rewrite Hdel, (np_array_same_length _ _ Hlens). cbn.
  rewrite (reciprocal_rows _ Hnz). cbn.
  rewrite <- list_fmap_compose.
  destruct (builtin_sum_columns
              (λ (row : list nat) l,
                 1 / (Qnat (column_count msa l (row !!! l)) * Qnat (d l)))
              (ncol msa) (rows msa) Hne) as (v & Hv & Hlen & Hcols).
  exists v. split.
  - rewrite <- Hv. do 2 f_equal. apply list_fmap_ext. intros _ row _. cbn.
    unfold c. by rewrite <- list_fmap_compose.
  - split; [done|]. apply Forall_lookup. intros l w Hw.
    rewrite (Hcols l w Hw).
    assert (l < ncol msa)%nat as Hl by (apply lookup_lt_Some in Hw; lia).
    apply Qsum_pos; [by intros ?%fmap_nil_inv|].
    apply Forall_fmap, Forall_forall. intros row Hrow. cbn.
    apply Qmult_lt_0_compat; [done|]. apply Qinv_lt_0_compat.
    assert (nonzero (Qnat (column_count msa l (row !!! l)) * Qnat (d l))
            = true) as Hprod.
    { rewrite Forall_fmap, Forall_forall in Hnz. specialize (Hnz row Hrow).
      cbn in Hnz. rewrite Forall_lookup in Hnz. apply (Hnz l).
      unfold c. by rewrite list_lookup_fmap, lookup_seq_lt. }
    apply nonzero_spec in Hprod.
    assert (0 <= Qnat (column_count msa l (row !!! l)) * Qnat (d l)) as Hge
      by (apply Qmult_le_0_compat; apply Qnat_nonneg).
    apply Qle_lteq in Hge as [Hlt|Heq]; [done|].
    destruct Hprod. by rewrite <- Heq.
Qed.

Lemma weights_henikoff_counting_gaps_per_column_witness :
  rectangular henikoff_example ∧ in_alphabet 7 henikoff_example
  ∧ (0 < nrow henikoff_example)%nat
  ∧ ∃ v, weights_henikoff 7 henikoff_example true = Ok (NdArray v)
         ∧ length v = ncol henikoff_example ∧ Forall (λ w, 0 < w) v.
Proof.
  split; [apply henikoff_example_well_formed|].
  split; [apply henikoff_example_well_formed|].
  split; [unfold nrow; cbn; lia|].
  apply (weights_henikoff_counting_gaps_per_column 7 henikoff_example);
    [apply henikoff_example_well_formed|apply henikoff_example_well_formed
    |unfold nrow; cbn; lia].
Defined.

(** ** The single-site weights with gaps left out *)

Lemma cleared_count_item (A : nat) (msa : Alignment) (l a : nat) :
  (l < ncol msa)%nat → (a < A)%nat →
  (r ← item ((λ row, <[0%nat := 0]> row) <$> single_counts A msa) l;
   item r a)
  = Ok (if decide (a = 0%nat) then 0 else Qnat (column_count msa l a)).
Proof.
  intros Hl Ha. unfold single_counts, item.
  rewrite !list_lookup_fmap, lookup_seq_lt by done. cbn.
  destruct (decide (a = 0%nat)) as [->|Hne].
  - rewrite list_lookup_insert_eq; [done|].
    by rewrite length_fmap, length_seq.
  - rewrite list_lookup_insert_ne by done.
    by rewrite list_lookup_fmap, lookup_seq_lt.
Qed.

Lemma length_filter_Forall2 {X Y} (f : X → bool) (P : Y → Prop)
    `{∀ y, Decision (P y)} (xs : list X) (ys : list Y) :
  Forall2 (λ x y, f x = true ↔ P y) xs ys →
  length (List.filter f xs) = length (filter P ys).
Proof.
  induction 1 as [|x y xs ys Hxy _ IH]; [done|].
  rewrite filter_cons. cbn [List.filter].
  destruct (f x) eqn:Hfx.
  - rewrite decide_True by by apply Hxy. cbn. by rewrite IH.
  - rewrite decide_False; [done|]. intros HP%Hxy. congruence.
Qed.

(** With gaps left out, the product [count * unique_aa] of a sequence at
    a column is zero exactly where the sequence has a gap, so the entries
    that [np.delete] keeps are as many as its non-gap positions. *)
Lemma cNi_row_not_counting_gaps (A : nat) (msa : Alignment) (row : list nat) :
  rectangular msa → in_alphabet A msa → row ∈ rows msa →
  ∃ c, cNi_row ((λ r, <[0%nat := 0]> r) <$> single_counts A msa)
               (unique_aa ((λ r, <[0%nat := 0]> r) <$> single_counts A msa))
               (ncol msa) row = Ok c
       ∧ length c = ncol msa
       ∧ length (delete_zeros c) = no_gap_count row.
Proof.
  intros Hrect Halpha Hin.
  assert (length row = ncol msa) as Hlen.
  { unfold rectangular in Hrect. rewrite Forall_forall in Hrect. eauto. }
  assert (Forall (λ c, c < A)%nat row) as Hrow.
  { unfold in_alphabet in Halpha. rewrite Forall_forall in Halpha. eauto. }
  rewrite Forall_lookup in Hrow.
  unfold cNi_row, take_states, range. rewrite Nat.sub_0_r.
  rewrite (mapM_Ok _ (λ la : nat * nat,
                        if decide (la.2 = 0%nat) then 0
                        else Qnat (column_count msa la.1 la.2))).
  2:{ apply Forall_lookup. intros i [l a]
        (l' & a' & [= -> ->] & Hl & Ha)%lookup_zip_with_Some.
      apply lookup_seq in Hl as [-> ?]. cbn.
      apply cleared_count_item; [lia|by eapply Hrow]. }
  cbn. eexists. split; [reflexivity|].
  assert (length (zip_with Qmult
            ((λ la : nat * nat,
                if decide (la.2 = 0%nat) then 0
                else Qnat (column_count msa la.1 la.2))
               <$> zip (seq 0 (ncol msa)) row)
            (Qnat <$> unique_aa ((λ r, <[0%nat := 0]> r)
                                   <$> single_counts A msa)))
          = ncol msa) as Hc.
  { unfold unique_aa, single_counts.
    rewrite length_zip_with, !length_fmap, length_zip_with, !length_seq. lia. }
  split; [exact Hc|].
  unfold delete_zeros, no_gap_count. apply length_filter_Forall2.
  apply Forall2_same_length_lookup_2; [lia|].
  intros i x a (p & q & -> & Hp & Hq)%lookup_zip_with_Some Ha.
  apply list_lookup_fmap_Some in Hp as ([l a'] & -> & Hla).
  apply lookup_zip_with_Some in Hla as (l' & a'' & [= <- <-] & Hl & Ha').
  apply lookup_seq in Hl as [-> Hi]. cbn in Hi.
  assert (a' = a) as -> by congruence. cbn.
  apply list_lookup_fmap_Some in Hq as (u & -> & Hu).
  destruct (decide (a = 0%nat)) as [->|Hne].
  - split; [|done]. intros Hnz%nonzero_spec. destruct Hnz. ring.
  - split; [done|]. intros _.
    unfold unique_aa, single_counts in Hu.
    rewrite !list_lookup_fmap, lookup_seq_lt in Hu by done.
    cbn in Hu. injection Hu as <-.
    assert (nonzero (Qnat (column_count msa i a)) = true) as Hcount.
    { apply Qnat_nonzero, column_count_pos. by exists row. }
    apply Qmult_nonzero; [done|]. apply Qnat_nonzero.
    assert (In (Qnat (column_count msa i a))
               (List.filter nonzero
                  (<[0%nat := 0]>
                     ((λ a, Qnat (column_count msa i a)) <$> seq 0 A))))
      as Hf.
    { apply List.filter_In. split; [|done].
      apply list_elem_of_In, list_elem_of_lookup. exists a.
      rewrite list_lookup_insert_ne by done.
      rewrite list_lookup_fmap, lookup_seq_lt; [done|]. by eapply Hrow. }
    destruct (List.filter _ _); [by destruct Hf|done].
Qed.

(** [np.array] refuses rows of different lengths. *)
Lemma np_array_ragged (rs : list (list Q)) (r1 r2 : list Q) :
  r1 ∈ rs → r2 ∈ rs → length r1 ≠ length r2 →
  np_array rs = Raise ValueError.
Proof.
  destruct rs as [|r rs]; [by intros ?%elem_of_nil|].
  intros H1 H2 Hne. cbn.
  destruct (forallb _ rs) eqn:Hall; [|done]. exfalso.
  rewrite forallb_forall in Hall.
  assert (∀ r', r' ∈ r :: rs → length r' = length r) as Hlen.
  { intros r' [->|Hr']%elem_of_cons; [done|].
    by apply Nat.eqb_eq, Hall, list_elem_of_In. }
  rewrite (Hlen r1 H1), (Hlen r2 H2) in Hne. done.
Qed.

(** X2.  With gaps left out (the default), [weights_henikoff] needs all
    sequences to have the same number of gaps.  When two sequences
    differ in their number of non-gap positions, the rows left after the
    zero products are deleted do not form a matrix and the call ends in
    [ValueError]; when all sequences have [m] non-gap positions, the
    result is a vector of [m] entries. *)
Theorem weights_henikoff_not_counting_gaps (A : nat) (msa : Alignment) :
  rectangular msa → in_alphabet A msa → (0 < A)%nat →
  (∀ r1 r2, r1 ∈ rows msa → r2 ∈ rows msa →
            no_gap_count r1 ≠ no_gap_count r2 →
            weights_henikoff A msa false = Raise ValueError)
  ∧ (∀ m, (0 < nrow msa)%nat →
          Forall (λ r, no_gap_count r = m) (rows msa) →
          ∃ v, weights_henikoff A msa false = Ok (NdArray v) ∧ length v = m).
Proof.
  intros Hrect Halpha HA.
  set (sc := (λ r, <[0%nat := 0]> r) <$> single_counts A msa).
  destruct (mapM_Ok_Forall (cNi_row sc (unique_aa sc) (ncol msa))
              (λ c, length c = ncol msa) (rows msa))
    as (c & Hc & Hlens & Hlen).
  { apply Forall_forall. intros row Hrow.
    destruct (cNi_row_not_counting_gaps A msa row) as (c & ? & ? & _);
      by eauto. }
  assert (Forall2 (λ row y, length (delete_zeros y) = no_gap_count row)
                  (rows msa) c) as Hkept.
  { apply Forall2_same_length_lookup_2; [done|].
    intros n row y Hrow Hy. apply mapM_Ok_inv in Hc.
    pose proof (Forall2_lookup_lr _ _ _ _ _ _ Hc Hrow Hy) as Hy'.
    destruct (cNi_row_not_counting_gaps A msa row) as (c' & Hc' & _ & Hd);
      [done|done|by eapply list_elem_of_lookup_2|].
    fold sc in Hc'. cbv beta in Hy'. rewrite Hc' in Hy'.
    by injection Hy' as <-. }
  assert (weights_henikoff A msa false
          = (c' ← np_array (delete_zeros <$> c);
             inv ← mapM (mapM reciprocal) c'; Ok (builtin_sum inv))) as ->.
  { unfold weights_henikoff, cNi, cNi_nogaps, clear_state0.
    rewrite decide_False by lia. cbn. fold sc. rewrite Hc. cbn.
    by rewrite (np_array_same_length _ _ Hlens). }
  split.
  - intros r1 r2 [n1 H1]%list_elem_of_lookup [n2 H2]%list_elem_of_lookup Hne.
    destruct (Forall2_lookup_l _ _ _ _ _ Hkept H1) as (y1 & Hy1 & Hk1).
    destruct (Forall2_lookup_l _ _ _ _ _ Hkept H2) as (y2 & Hy2 & Hk2).
    rewrite (np_array_ragged _ (delete_zeros y1) (delete_zeros y2));
      [done| | |congruence].
    + apply list_elem_of_fmap_2. by eapply list_elem_of_lookup_2.
    + apply list_elem_of_fmap_2. by eapply list_elem_of_lookup_2.
  - intros m Hrows Hm.
    assert (Forall (λ r, length r = m) (delete_zeros <$> c)) as Hdel.
    { apply Forall_fmap, Forall_lookup. intros n y Hy. cbn.
      destruct (Forall2_lookup_r _ _ _ _ _ Hkept Hy) as (row & Hrow & ->).
      rewrite Forall_lookup in Hm. by eapply Hm. }
    rewrite (np_array_same_length _ _ Hdel). cbn.
    rewrite reciprocal_rows.
    2:{ apply Forall_fmap, Forall_true. intros y. apply delete_zeros_nonzero. }
    cbn.
    destruct (builtin_sum_length m
                ((λ r : list Q, (λ x, 1 / x) <$> r) <$> (delete_zeros <$> c)))
      as (v & Hv & Hvlen).
    + intros Hnil%fmap_nil_inv%fmap_nil_inv. subst c. cbn in Hlen.
      unfold nrow in Hrows. lia.
    + apply Forall_fmap. eapply Forall_impl; [exact Hdel|].
      intros r Hr. cbn. by rewrite length_fmap.
    + exists v. by rewrite Hv.
Qed.

Lemma weights_henikoff_not_counting_gaps_witness :
  rectangular henikoff_example ∧ in_alphabet 7 henikoff_example
  ∧ (0 < 7)%nat
  ∧ no_gap_count [0; 1; 3; 0; 6]%nat ≠ no_gap_count [0; 1; 5; 0; 0]%nat
  ∧ weights_henikoff 7 henikoff_example false = Raise ValueError.
Proof.
  split; [apply henikoff_example_well_formed|].
  split; [apply henikoff_example_well_formed|].
  split; [lia|]. split; [discriminate|].
  apply (proj1 (weights_henikoff_not_counting_gaps 7 henikoff_example
                  (proj1 henikoff_example_well_formed)
                  (proj2 henikoff_example_well_formed) ltac:(lia))
               [0; 1; 3; 0; 6]%nat [0; 1; 5; 0; 0]%nat).
  - cbn. left.
  - cbn. do 3 right. left.
  - discriminate.
Defined.

End WeightingExtras.

(** * Further properties of the driver script *)

Module CcmgenExtras.

Import Ccmgen CcmgenProofs.

(** ** Validation *)

Lemma parse_args_inr (opt opt' : options) :
  parse_args opt = inr opt' → opt' = opt.
Proof.
  unfold parse_args. by repeat destruct (_ && _); intros; simplify_eq.
Qed.

Lemma parse_args_accepts (opt : options) :
  parse_args opt = inr opt
  ↔ (mcmc opt = true ∨ tree_named opt)
    ∧ (tree_named opt →
       ¬ mutation_rate opt == 0 ∨ mutation_rate_neff opt = true).
Proof.
  rewrite tree_named_truthy,
    <- (WeightingProofs.nonzero_spec (mutation_rate opt)).
  unfold parse_args, truthy_float.
  destruct (mcmc opt), (truthy_source (tree_source opt)),
    (truthy_str (tree_file opt)), (mutation_rate_neff opt),
    (nonzero (mutation_rate opt)); cbn; intuition congruence.
Qed.

(** X7.  The checks of [parse_args] accept a namespace exactly when it
    has the MCMC flag or names a tree, and a named tree comes with a
    non-zero mutation rate or the Neff-matching flag.  An accepted
    namespace is returned as it is; a rejected one gets one of the two
    messages. *)
Theorem parse_args_accepts_iff (opt : options) :
  (parse_args opt = inr opt
   ↔ (mcmc opt = true ∨ tree_named opt)
     ∧ (tree_named opt →
        ¬ mutation_rate opt == 0 ∨ mutation_rate_neff opt = true))
  ∧ (∀ opt', parse_args opt = inr opt' → opt' = opt)
  ∧ (∀ msg, parse_args opt = inl msg →
       msg = "Need one of the --tree-* options or --mcmc-sampling!"%string
       ∨ msg = "Need one of the --mutation-rate* options!"%string).
Proof.
  split; [apply parse_args_accepts|]. split; [apply parse_args_inr|].
  intros msg. unfold parse_args.
  repeat destruct (_ && _); intros; simplify_eq; auto.
Qed.

(** ** Zeroing the couplings of non-contacts: errors and repetition *)

Lemma zero_block_Raise (x : tensor) (ij : nat * nat) (e : exn) :
  zero_block x ij = Raise e → e = IndexError ∧ block x ij.1 ij.2 = None.
Proof.
  unfold zero_block, block, item.
  destruct (x !! ij.1) as [xi|]; cbn; [|by intros [= <-]].
  destruct (xi !! ij.2) as [blk|]; cbn; [done|by intros [= <-]].
Qed.

Lemma block_None_zero_block (x x' : tensor) (ij : nat * nat) (i j : nat) :
  zero_block x ij = Ok x' → block x' i j = None ↔ block x i j = None.
Proof.
  intros H. rewrite (block_zero_block _ _ _ i j H).
  case_decide; [|done]. by destruct (block x i j).
Qed.

(** The loop raises exactly when one of the pairs is out of range, and
    then it raises [IndexError]. *)
Lemma zero_blocks_Raise (ijs : list (nat * nat)) : ∀ x : tensor,
  (∀ e, foldM zero_block x ijs = Raise e → e = IndexError)
  ∧ ((∃ e, foldM zero_block x ijs = Raise e)
     ↔ ∃ i j, (i, j) ∈ ijs ∧ block x i j = None).
Proof.
  induction ijs as [|[i0 j0] ijs IH]; intros x.
  - split; [done|]. split; [by intros [e ?]|].
    by intros (i & j & ?%elem_of_nil & _).
  - cbn. destruct (zero_block x (i0, j0)) as [x1|e1] eqn:H1; cbn.
    + destruct (IH x1) as [IHe IHiff]. split; [done|].
      rewrite IHiff. split.
      * intros (i & j & Hin & Hb). exists i, j. split; [by right|].
        by apply (block_None_zero_block _ _ _ i j H1).
      * intros (i & j & [[= -> ->]|Hin]%elem_of_cons & Hb).
        -- unfold zero_block, block, item in *. cbn in H1.
           destruct (x !! i0) as [xi|]; [|done]. cbn in H1.
           by destruct (xi !! j0).
        -- exists i, j. split; [done|].
           by apply (block_None_zero_block _ _ _ i j H1).
    + apply zero_block_Raise in H1 as [-> Hb]. split; [by intros e [= <-]|].
      split; [|by eauto]. intros _. exists i0, j0. split; [by left|done].
Qed.

Lemma broadcast_indices_Raise (I J : list nat) (e : exn) :
  broadcast_indices I J = Raise e → e = IndexError.
Proof.
  unfold broadcast_indices.
  destruct I as [|i [|i' I]], J as [|j [|j' J]]; cbn; try done;
    case_decide; try done; by intros [= <-].
Qed.

Lemma zero_non_contacts_Raise (idx : list nat * list nat) (x : tensor) e :
  zero_non_contacts idx x = Raise e → e = IndexError.
Proof.
  unfold zero_non_contacts.
  destruct (broadcast_indices idx.1 idx.2) as [ijs|e'] eqn:Hb; cbn.
  - apply zero_blocks_Raise.
  - intros [= <-]. by eapply broadcast_indices_Raise.
Qed.

(** X11.  [x_pair[I, J, :, :] = 0] raises nothing but [IndexError], and
    for index arrays that pair up it raises exactly when one of the
    named pairs lies outside the tensor. *)
Theorem zero_non_contacts_raises_iff
    (idx : list nat * list nat) (ijs : list (nat * nat)) (x : tensor) :
  broadcast_indices idx.1 idx.2 = Ok ijs →
  (zero_non_contacts idx x = Raise IndexError
   ↔ ∃ i j, (i, j) ∈ ijs ∧ block x i j = None)
  ∧ (∀ e, zero_non_contacts idx x = Raise e → e = IndexError).
Proof.
  intros Hb. split; [|intros e; apply zero_non_contacts_Raise].
  unfold zero_non_contacts. rewrite Hb. cbn.
  destruct (zero_blocks_Raise ijs x) as [He Hiff]. rewrite <- Hiff.
  split; [by eauto|]. intros [e H]. by rewrite (He e H) in H.
Qed.

Lemma zero_non_contacts_raises_iff_witness :
  broadcast_indices out_of_range_indices.1 out_of_range_indices.2
  = Ok [(2, 0)%nat]
  ∧ (zero_non_contacts out_of_range_indices two_column_tensor
     = Raise IndexError
     ↔ ∃ i j, (i, j) ∈ [(2, 0)%nat] ∧ block two_column_tensor i j = None).
Proof.
  split; [reflexivity|].
  exact (proj1 (zero_non_contacts_raises_iff out_of_range_indices
                  [(2, 0)%nat] two_column_tensor eq_refl)).
Defined.

(** The pair [(2, 0)] is outside a tensor on two columns. *)
Example out_of_range_raises :
  zero_non_contacts out_of_range_indices two_column_tensor = Raise IndexError.
Proof. reflexivity. Qed.

Lemma zeros_like_idemp (blk : list (list Q)) :
  zeros_like (zeros_like blk) = zeros_like blk.
Proof.
  unfold zeros_like. rewrite <- list_fmap_compose.
  apply list_fmap_ext. intros _ r _. cbn. by rewrite <- list_fmap_compose.
Qed.

(** Zeroing a block that is zero leaves the tensor as it is. *)
Lemma zero_block_fixed (x : tensor) (i j : nat) (blk : list (list Q)) :
  block x i j = Some (zeros_like blk) → zero_block x (i, j) = Ok x.
Proof.
  unfold block, zero_block, item. cbn.
  destruct (x !! i) as [xi|] eqn:Hxi; cbn; [|done].
  intros Hj. rewrite Hj. cbn. rewrite zeros_like_idemp.
  by rewrite (list_insert_id xi j), (list_insert_id x i).
Qed.

(** X12.  Zeroing the non-contacts a second time changes nothing: the
    assignment is idempotent. *)
Theorem zero_non_contacts_idempotent
    (idx : list nat * list nat) (x x' : tensor) :
  zero_non_contacts idx x = Ok x' → zero_non_contacts idx x' = Ok x'.
Proof.
  unfold zero_non_contacts.
  destruct (broadcast_indices idx.1 idx.2) as [ijs|] eqn:Hb; cbn; [|done].
  intros Hx'.
  assert (∀ i j, (i, j) ∈ ijs → ∃ blk, block x' i j = Some (zeros_like blk))
    as Hzero.
  { intros i j Hin. rewrite (block_zero_blocks ijs x x' i j Hx').
    rewrite decide_True by done.
    destruct (block x i j) as [blk|] eqn:Hblk; [by exists blk|].
    destruct (zero_blocks_Raise ijs x) as [_ Hiff].
    destruct (proj2 Hiff) as [e He]; [by exists i, j|]. congruence. }
  clear Hx' Hb. induction ijs as [|[i j] ijs IH]; [done|].
  destruct (Hzero i j) as [blk Hblk]; [by left|].
  cbn. rewrite (zero_block_fixed x' i j blk Hblk). cbn.
  apply IH. intros i' j' Hin. apply Hzero. by right.
Qed.

Lemma zero_non_contacts_idempotent_witness :
  zero_non_contacts two_sided_indices two_column_tensor
  = Ok zeroed_two_column_tensor
  ∧ zero_non_contacts two_sided_indices zeroed_two_column_tensor
    = Ok zeroed_two_column_tensor.
Proof.
  split; [reflexivity|].
  apply (zero_non_contacts_idempotent two_sided_indices two_column_tensor).
  reflexivity.
Defined.

(** ** What a run does *)

(** X9.  Whenever [main] calls [write_msa], that call is the last thing
    the run does and the only call of the writer, and exactly one sampler
    call was made before it. *)
Theorem write_follows_one_sampler_call (P : Packages) (opt : options)
    (out : string) (n : nat) (ids descs : list string) (fmt : string) :
  WriteMsa out n ids descs fmt ∈ log (main P opt) →
  (∃ call, sampler_calls (main P opt) = [call])
  ∧ written (main P opt) = [(n, ids)]
  ∧ last (log (main P opt)) = Some (WriteMsa out n ids descs fmt).
Proof.
  unfold main. destruct (parse_args opt) as [msg|opt'] eqn:Hp.
  { cbn. by intros ?%elem_of_nil. }
  apply parse_args_inr in Hp as ->.
  unfold main_body, sampler_calls, written.
  destruct (truthy_str (pdbfile opt)); cbn -[zero_non_contacts range].
  - destruct (zero_non_contacts _ _); cbn -[range].
    + destruct (_ <? _)%Z; cbn -[range]; intros Hin;
        repeat (apply elem_of_cons in Hin as [Hin|Hin]; [discriminate Hin||
          (injection Hin as -> -> -> -> ->; by eauto)|]);
        by apply elem_of_nil in Hin.
    + intros Hin.
      repeat (apply elem_of_cons in Hin as [Hin|Hin]; [discriminate Hin|]);
        by apply elem_of_nil in Hin.
  - destruct (_ <? _)%Z; cbn -[range]; intros Hin;
      repeat (apply elem_of_cons in Hin as [Hin|Hin]; [discriminate Hin||
        (injection Hin as -> -> -> -> ->; by eauto)|]);
      by apply elem_of_nil in Hin.
Qed.

Lemma write_follows_one_sampler_call_witness :
  WriteMsa "out" 2 ["leaf 0"; "leaf 1"; "leaf 2"]
           ["synthetic sequence generated with CCMgen";
            "synthetic sequence generated with CCMgen"] "fasta"
    ∈ log (main demo_packages (opt_star_negative_rate 3 2))
  ∧ (∃ call,
       sampler_calls (main demo_packages (opt_star_negative_rate 3 2))
       = [call])
  ∧ written (main demo_packages (opt_star_negative_rate 3 2))
    = [(2%nat, ["leaf 0"; "leaf 1"; "leaf 2"]%string)].
Proof.
  assert (WriteMsa "out" 2 ["leaf 0"; "leaf 1"; "leaf 2"]
            ["synthetic sequence generated with CCMgen";
             "synthetic sequence generated with CCMgen"] "fasta"
          ∈ log (main demo_packages (opt_star_negative_rate 3 2))) as H.
  { vm_compute. do 7 apply list_elem_of_further. apply list_elem_of_here. }
  split; [exact H|].
  destruct (write_follows_one_sampler_call demo_packages
              (opt_star_negative_rate 3 2) _ _ _ _ _ H) as (H1 & H2 & _).
  split; [exact H1|exact H2].
Defined.

(** X8.  The [--mcmc-sampling] flag lets a command line pass the checks
    but does not choose the sampler: with a positive constant mutation
    rate the run calls the tree sampler with [--burn-in] and the rate,
    whether or not a tree option was given. *)
Theorem mcmc_flag_with_rate_runs_tree_sampler (P : Packages) (opt : options) :
  mcmc opt = true → mutation_rate_neff opt = false → 0 < mutation_rate opt →
  parse_args opt = inr opt
  ∧ (truthy_str (pdbfile opt) = false → exit (main P opt) = Done)
  ∧ (exit (main P opt) = Done →
     sampler_calls (main P opt)
     = [sample_with_mutation_rate (burn_in opt) (mutation_rate opt)]).
Proof.
  intros Hm Hneff Hrate.
  assert (positive (mutation_rate opt) = true) as Hpos
    by by apply positive_spec.
  assert (parse_args opt = inr opt) as Hparse.
  { apply parse_args_accepts. split; [by left|].
    intros _. left. intros H0. rewrite H0 in Hrate.
    by apply Qlt_irrefl in Hrate. }
  split; [done|]. unfold main. rewrite Hparse.
  unfold main_body, sampler_calls. rewrite Hneff, Hpos.
  destruct (truthy_str (pdbfile opt)); cbn -[zero_non_contacts].
  - split; [done|]. destruct (zero_non_contacts _ _); cbn; [|done].
    intros _. by destruct (_ <? _)%Z.
  - split; [done|]. intros _. by destruct (_ <? _)%Z.
Qed.

Lemma mcmc_flag_with_rate_runs_tree_sampler_witness :
  mcmc opt_mcmc_with_rate = true
  ∧ tree_file opt_mcmc_with_rate = None
  ∧ tree_source opt_mcmc_with_rate = None
  ∧ 0 < mutation_rate opt_mcmc_with_rate
  ∧ parse_args opt_mcmc_with_rate = inr opt_mcmc_with_rate
  ∧ (truthy_str (pdbfile opt_mcmc_with_rate) = false →
     exit (main demo_packages opt_mcmc_with_rate) = Done)
  ∧ (exit (main demo_packages opt_mcmc_with_rate) = Done →
     sampler_calls (main demo_packages opt_mcmc_with_rate)
     = [sample_with_mutation_rate 500 (1 # 2)]).
Proof.
  split; [reflexivity|]. split; [reflexivity|]. split; [reflexivity|].
  split; [reflexivity|].
  apply (mcmc_flag_with_rate_runs_tree_sampler demo_packages
           opt_mcmc_with_rate); reflexivity.
Defined.



(** X13.  Whatever is written carries the identifiers of the tree, on
    every run and whichever sampler ran: the list [ids] that lines
    192-195 build is not what line 196 passes. *)
Theorem writer_gets_tree_ids (P : Packages) (opt : options)
    (n : nat) (ids : list string) :
  (n, ids) ∈ written (main P opt) →
  ∃ nseq, ids = tree_ids P (specify_tree P nseq (tree_file opt)
                                         (tree_source opt)).
Proof.
  unfold main. destruct (parse_args opt) as [msg|opt'] eqn:Hp.
  { cbn. by intros ?%elem_of_nil. }
  apply parse_args_inr in Hp as ->.
  unfold main_body, written.
  destruct (truthy_str (pdbfile opt)); cbn -[zero_non_contacts].
  - destruct (zero_non_contacts _ _); cbn.
    + destruct (_ <? _)%Z; cbn; intros [= _ ->]%list_elem_of_singleton; eauto.
    + by intros ?%elem_of_nil.
  - destruct (_ <? _)%Z; cbn; intros [= _ ->]%list_elem_of_singleton; eauto.
Qed.

Lemma writer_gets_tree_ids_witness :
  (2%nat, ["leaf 0"; "leaf 1"; "leaf 2"]%string)
    ∈ written (main demo_packages (opt_star_negative_rate 3 2))
  ∧ ∃ nseq, ["leaf 0"; "leaf 1"; "leaf 2"]%string
            = tree_ids demo_packages
                (specify_tree demo_packages nseq
                   (tree_file (opt_star_negative_rate 3 2))
                   (tree_source (opt_star_negative_rate 3 2))).
Proof.
  assert ((2%nat, ["leaf 0"; "leaf 1"; "leaf 2"]%string)
            ∈ written (main demo_packages (opt_star_negative_rate 3 2)))
    as H.
  { vm_compute. apply list_elem_of_here. }
  split; [exact H|].
  exact (writer_gets_tree_ids demo_packages (opt_star_negative_rate 3 2)
           _ _ H).
Defined.

End CcmgenExtras.
